(** * A 2D Navier-Stokes projection solver: model and verification

    The program is the notebook [Navier_Stokes_Solver_2D.ipynb]: centred
    finite differences on a square grid, an explicit predictor, a Jacobi
    pressure solve, a corrector, and the time-stepping loop around them.

    Arrays are lists of rows.  The array expressions of the source (slices,
    [.at[...].set(...)], element-wise arithmetic) are modelled one by one and
    the functions of the notebook are transcribed on top of them, so that the
    cell-by-cell statements below are theorems and not definitions. *)

From Stdlib Require Import ZArith Floats.
From stdpp Require Import base option list.

(** ** Scalars

    The arithmetic of the array elements.  Nothing is assumed about it: the
    theorems hold for every rounding, for infinities and for NaN.

    One type holds the Python floats, the elements of the NumPy arrays
    [u_init] and [v_init] (binary64) and the elements of the JAX arrays
    (binary32 unless [jax_enable_x64] is set). [cast] is the conversion to
    the element type of the JAX arrays of a value that is stored into one
    of them as it is: [x.at[...].set(y)] with [y] a NumPy array converts
    [y] to the element type of [x]. The arithmetic operations take operands
    of either kind and convert them themselves. *)

Class Scalar (R : Type) := {
  zero : R;                 (* the element of [jnp.zeros_like] *)
  quarter : R;              (* the literal 0.25 *)
  of_int : Z -> R;          (* a Python int used in float arithmetic *)
  add : R -> R -> R;
  sub : R -> R -> R;
  mul : R -> R -> R;
  div : R -> R -> R;        (* division of array elements: never raises *)
  pow : R -> Z -> R;        (* [x ** k] *)
  is_zero : R -> bool;      (* [x == 0.0], the test of Python's float division *)
  is_nan : R -> bool;
  cast : R -> R             (* to the element type of the JAX arrays *)
}.

(** ** Exceptions *)

Inductive exn : Type :=
  | ZeroDivisionError
  | UnboundLocalError
  | FloatingPointError.

Inductive result (A : Type) : Type :=
  | Ok (a : A)
  | Raise (e : exn).
Arguments Ok {A} a.
Arguments Raise {A} e.

#[global] Instance result_ret : MRet result := fun A a => Ok a.
#[global] Instance result_bind : MBind result := fun A B f m =>
  match m with
  | Ok a => f a
  | Raise e => Raise e
  end.

(** The globals set by the constants cell. *)
Record Globals (R : Type) : Type := {
  N_POINTS : Z;
  dt : R;
  TIMESTEPS : Z;
  VISCOSITY : R;
  DENSITY : R;
  JACOBI_ITERATIONS : Z;
  ELEMENT_LENGTH : R
}.
Arguments N_POINTS {R} g.
Arguments dt {R} g.
Arguments TIMESTEPS {R} g.
Arguments VISCOSITY {R} g.
Arguments DENSITY {R} g.
Arguments JACOBI_ITERATIONS {R} g.
Arguments ELEMENT_LENGTH {R} g.

Abbreviation array R := (list (list R)).

(** The velocity components and the pressure at one time level. *)
Record State (R : Type) : Type := {
  st_u : array R;
  st_v : array R;
  st_p : array R
}.
Arguments st_u {R} s.
Arguments st_v {R} s.
Arguments st_p {R} s.

(** The local variables of the loop of [p_update]: [p_next] is unbound until
    the body has run once. *)
Record Locals (R : Type) : Type := {
  loc_p_prev : array R;
  loc_p_next : option (array R)
}.
Arguments loc_p_prev {R} l.
Arguments loc_p_next {R} l.

(** ** Python and JAX indexing on lists *)

Section Indexing.
Context {A : Type}.

(** A slice bound [k] on a sequence of length [len]: negative bounds count
    from the end, and every bound is clipped to [0 .. len]. *)
Definition py_bound (len : nat) (k : Z) : nat :=
  Z.to_nat (if (k <? 0)%Z then Z.max 0 (k + Z.of_nat len)
            else Z.min k (Z.of_nat len)).

Definition slice_lo (len : nat) (start : option Z) : nat :=
  from_option (py_bound len) 0 start.
Definition slice_hi (len : nat) (stop : option Z) : nat :=
  from_option (py_bound len) len stop.

(** [l[start:stop]] *)
Definition py_slice (start stop : option Z) (l : list A) : list A :=
  let lo := slice_lo (length l) start in
  let hi := slice_hi (length l) stop in
  take (hi - lo) (drop lo l).

(** [l.at[start:stop].set(v)], for [v] as long as the slice. *)
Definition at_slice_set (start stop : option Z) (l v : list A) : list A :=
  let lo := slice_lo (length l) start in
  let hi := slice_hi (length l) stop in
  list_inserts lo (take (hi - lo) v) l.

(** An integer index [k]: negative indices count from the end. *)
Definition py_index (len : nat) (k : Z) : Z :=
  if (k <? 0)%Z then (k + Z.of_nat len)%Z else k.

(** Reading [l[k]]: JAX clamps an index that is out of range. The program
    reads at [0], [1], [-1] and [-2], all in range on two elements or
    more. *)
Definition read_index (len : nat) (k : Z) : nat :=
  Z.to_nat (Z.max 0 (Z.min (py_index len k) (Z.of_nat len - 1))).

(** Writing [l.at[k].set(x)]: JAX drops a write that is out of range. *)
Definition write_index (len : nat) (k : Z) : option nat :=
  let i := py_index len k in
  if ((0 <=? i) && (i <? Z.of_nat len))%Z then Some (Z.to_nat i) else None.

Definition getitem `{!Inhabited A} (k : Z) (l : list A) : A :=
  l !!! read_index (length l) k.

Definition at_set (k : Z) (l : list A) (x : A) : list A :=
  match write_index (length l) k with
  | Some i => <[i:=x]> l
  | None => l
  end.
End Indexing.

(** ** Arrays *)

Section Arrays.
Context {R : Type} `{!Scalar R}.

#[local] Instance scalar_inhabited : Inhabited R := populate zero.

(** [n] rows of [m] elements each. *)
Definition has_shape (n m : nat) (a : array R) : Prop :=
  length a = n /\ Forall (fun r => length r = m) a.

Definition get (a : array R) (i j : nat) : option R :=
  a !! i ≫= fun r => r !! j.

(** [a[i, j]] for an index in range, [zero] outside. *)
Definition cell (a : array R) (i j : nat) : R :=
  default zero (get a i j).

(** The list [F 0, ..., F (n-1)], and the [n] by [m] array of cells
    [F i j]: every array of that shape is one (lemma [tab_cell]). *)
Definition tab1 {A : Type} (n : nat) (F : nat -> A) : list A :=
  F <$> seq 0 n.
Definition tab (n m : nat) (F : nat -> nat -> R) : array R :=
  tab1 n (fun i => tab1 m (F i)).

(** [jnp.zeros_like(a)] *)
Definition zeros_like (a : array R) : array R :=
  (fun r : list R => (fun _ : R => zero) <$> r) <$> a.

(** An operation between an array and a Python scalar. *)
Definition arr_map (f : R -> R) (a : array R) : array R :=
  (fun r : list R => f <$> r) <$> a.

(** An element-wise operation between two arrays of one shape. JAX's
    broadcasting of different shapes is not modelled: every binary
    operation of the program is between arrays of one shape
    (see the [has_shape] lemmas). *)
Definition arr_zip (f : R -> R -> R) (a b : array R) : array R :=
  zip_with (zip_with f) a b.

(** [a[rs:re, cs:ce]] *)
Definition slice2 (rs re cs ce : option Z) (a : array R) : array R :=
  py_slice cs ce <$> py_slice rs re a.

(** [a.at[rs:re, cs:ce].set(b)], for [b] of the shape of the slice. *)
Definition at_slice2_set (rs re cs ce : option Z) (a b : array R) : array R :=
  at_slice_set rs re a (zip_with (at_slice_set cs ce) (py_slice rs re a) b).

(** [a[k, :]] *)
Definition row (k : Z) (a : array R) : list R := getitem k a.

(** [a[:, k]] *)
Definition col (k : Z) (a : array R) : list R := getitem k <$> a.

(** [a.at[k, :].set(v)] *)
Definition at_row_set (k : Z) (a : array R) (v : list R) : array R :=
  at_set k a v.

(** [a.at[:, k].set(v)] *)
Definition at_col_set (k : Z) (a : array R) (v : list R) : array R :=
  zip_with (at_set k) a v.

(** The interior [1 <= i <= n-2], [1 <= j <= m-2] of an [n] by [m] grid. *)
Definition interior (n m i j : nat) : bool :=
  bool_decide (1 <= i /\ i + 2 <= n /\ 1 <= j /\ j + 2 <= m).

(** Its four edges. *)
Definition boundary (n m i j : nat) : bool :=
  bool_decide (i < n /\ j < m /\ (i = 0 \/ i + 1 = n \/ j = 0 \/ j + 1 = m)).

(** Python's division of floats. *)
Definition float_div (x y : R) : result R :=
  if is_zero y then Raise ZeroDivisionError else Ok (div x y).

Definition has_nan (a : array R) : bool :=
  existsb (existsb is_nan) a.
End Arrays.

(** ** The notebook *)

Section Notebook.
Context {R : Type} `{!Scalar R}.

(** The arithmetic operators of the source on arrays and scalars. *)
Definition arr_add : array R -> array R -> array R := arr_zip add.
Definition arr_sub : array R -> array R -> array R := arr_zip sub.
Definition arr_mul : array R -> array R -> array R := arr_zip mul.
Definition scal_mul (c : R) : array R -> array R := arr_map (mul c).
Definition arr_div_scal (a : array R) (c : R) : array R :=
  arr_map (fun x => div x c) a.

(** The slices [1:-1], [2:] and [0:-2], as pairs of bounds. *)
Definition mid : option Z * option Z := (Some 1%Z, Some (-1)%Z).
Definition upper : option Z * option Z := (Some 2%Z, None).
Definition lower : option Z * option Z := (Some 0%Z, Some (-2)%Z).

(** [a[rows, cols]] and [a.at[rows, cols].set(b)] *)
Definition sub_array (rows cols : option Z * option Z) (a : array R) : array R :=
  slice2 rows.1 rows.2 cols.1 cols.2 a.
Definition at_sub_array_set (rows cols : option Z * option Z)
    (a b : array R) : array R :=
  at_slice2_set rows.1 rows.2 cols.1 cols.2 a b.

(** A slice that keeps [len - 2] elements and starts at [off] when there
    are at least two. *)
Definition stencil_slice (s : option Z * option Z) (off : nat) : Prop :=
  forall len, slice_hi len s.2 - slice_lo len s.1 = len - 2 /\
              (2 <= len -> slice_lo len s.1 = off).

(** The constants cell. [1 / (N_POINTS - 1)] divides two Python ints. *)
Definition constants (n_points : Z) (dt' : R) (timesteps : Z)
    (viscosity density : R) (jacobi_iterations : Z) : result (Globals R) :=
  if (n_points - 1 =? 0)%Z then Raise ZeroDivisionError
  else Ok {| N_POINTS := n_points; dt := dt'; TIMESTEPS := timesteps;
             VISCOSITY := viscosity; DENSITY := density;
             JACOBI_ITERATIONS := jacobi_iterations;
             ELEMENT_LENGTH := div (of_int 1) (of_int (n_points - 1)) |}.

Section Functions.
Variable g : Globals R.

(** [diff.at[1:-1, 1:-1].set((f[1:-1, 2:] - f[1:-1, 0:-2]) / (2 * ELEMENT_LENGTH))] *)
Definition d_dx (f : array R) : array R :=
  let diff := zeros_like f in
  let diff := at_sub_array_set mid mid diff
    (arr_div_scal (arr_sub (sub_array mid upper f) (sub_array mid lower f))
                  (mul (of_int 2) (ELEMENT_LENGTH g))) in
  diff.

(** [diff.at[1:-1, 1:-1].set((f[2:, 1:-1] - f[0:-2, 1:-1]) / (2 * ELEMENT_LENGTH))] *)
Definition d_dy (f : array R) : array R :=
  let diff := zeros_like f in
  let diff := at_sub_array_set mid mid diff
    (arr_div_scal (arr_sub (sub_array upper mid f) (sub_array lower mid f))
                  (mul (of_int 2) (ELEMENT_LENGTH g))) in
  diff.

(** [diff.at[1:-1, 1:-1].set((f[1:-1, 2:] - 2 * f[1:-1, 1:-1] + f[1:-1, 0:-2])
    / (ELEMENT_LENGTH**2))] *)
Definition d2_dx2 (f : array R) : array R :=
  let diff := zeros_like f in
  let diff := at_sub_array_set mid mid diff
    (arr_div_scal
       (arr_add (arr_sub (sub_array mid upper f)
                         (scal_mul (of_int 2) (sub_array mid mid f)))
                (sub_array mid lower f))
       (pow (ELEMENT_LENGTH g) 2)) in
  diff.

(** [diff.at[1:-1, 1:-1].set((f[2:, 1:-1] - 2 * f[1:-1, 1:-1] + f[0:-2, 1:-1])
    / (ELEMENT_LENGTH**2))] *)
Definition d2_dy2 (f : array R) : array R :=
  let diff := zeros_like f in
  let diff := at_sub_array_set mid mid diff
    (arr_div_scal
       (arr_add (arr_sub (sub_array upper mid f)
                         (scal_mul (of_int 2) (sub_array mid mid f)))
                (sub_array lower mid f))
       (pow (ELEMENT_LENGTH g) 2)) in
  diff.

(** [d2_dx2(f) + d2_dy2(f)] *)
Definition laplacian (f : array R) : array R :=
  arr_add (d2_dx2 f) (d2_dy2 f).

(** [u - dt * (jnp.multiply(u, d_dx(u)) + jnp.multiply(v, d_dy(u)))
    + dt * VISCOSITY * laplacian(u)] *)
Definition u_intermediate (u v : array R) : array R :=
  arr_add
    (arr_sub u (scal_mul (dt g)
                  (arr_add (arr_mul u (d_dx u)) (arr_mul v (d_dy u)))))
    (scal_mul (mul (dt g) (VISCOSITY g)) (laplacian u)).

(** [v - dt * (jnp.multiply(u, d_dx(v)) + jnp.multiply(v, d_dy(v)))
    + dt * VISCOSITY * laplacian(v)] *)
Definition v_intermediate (u v : array R) : array R :=
  arr_add
    (arr_sub v (scal_mul (dt g)
                  (arr_add (arr_mul u (d_dx v)) (arr_mul v (d_dy v)))))
    (scal_mul (mul (dt g) (VISCOSITY g)) (laplacian v)).

(** One pass through the body of the loop of [p_update]: the value it
    gives [p_next], from the [p_prev] it reads. The interior is
    [0.25 * (p_prev[1:-1, 2:] + p_prev[1:-1, 0:-2] + p_prev[2:, 1:-1]
    + p_prev[0:-2, 1:-1] - ELEMENT_LENGTH**2 * rhs[1:-1, 1:-1])]; the four
    assignments after it are [.at[:, -1].set(p_next[:, -2])],
    [.at[0, :].set(p_next[1, :])], [.at[:, 0].set(p_next[:, 1])] and
    [.at[-1, :].set(p_next[-1, :])]. *)
Definition jacobi_sweep (rhs p_prev : array R) : array R :=
  let p_next := zeros_like p_prev in
  let p_next := at_sub_array_set mid mid p_next
    (scal_mul quarter
       (arr_sub
          (arr_add
             (arr_add
                (arr_add (sub_array mid upper p_prev)
                         (sub_array mid lower p_prev))
                (sub_array upper mid p_prev))
             (sub_array lower mid p_prev))
          (scal_mul (pow (ELEMENT_LENGTH g) 2) (sub_array mid mid rhs)))) in
  let p_next := at_col_set (-1) p_next (col (-2) p_next) in
  let p_next := at_row_set 0 p_next (row 1 p_next) in
  let p_next := at_col_set 0 p_next (col 1 p_next) in
  let p_next := at_row_set (-1) p_next (row (-1) p_next) in
  p_next.

(** The effect of the body on the local variables: it assigns [p_next]
    and never [p_prev]. *)
Definition jacobi_body (rhs : array R) (l : Locals R) : Locals R :=
  {| loc_p_prev := loc_p_prev l;
     loc_p_next := Some (jacobi_sweep rhs (loc_p_prev l)) |}.

(** [rhs = DENSITY / dt * (d_dx(u) + d_dy(v))], the loop over
    [range(JACOBI_ITERATIONS)], and [return p_next]. *)
Definition p_update (u v p_prev : array R) : result (array R) :=
  c ← float_div (DENSITY g) (dt g);
  let rhs := scal_mul c (arr_add (d_dx u) (d_dy v)) in
  let l := Nat.iter (Z.to_nat (JACOBI_ITERATIONS g)) (jacobi_body rhs)
             {| loc_p_prev := p_prev; loc_p_next := None |} in
  match loc_p_next l with
  | Some p_next => Ok p_next
  | None => Raise UnboundLocalError
  end.

(** [u - (dt / DENSITY) * d_dx(p)] *)
Definition u_update (u p : array R) : result (array R) :=
  c ← float_div (dt g) (DENSITY g);
  Ok (arr_sub u (scal_mul c (d_dx p))).

(** [v - (dt / DENSITY) * d_dy(p)] *)
Definition v_update (v p : array R) : result (array R) :=
  c ← float_div (dt g) (DENSITY g);
  Ok (arr_sub v (scal_mul c (d_dy p))).

(** The right-hand side that [p_update] computes when [dt] is not zero. *)
Definition rhs_of (u v : array R) : array R :=
  scal_mul (div (DENSITY g) (dt g)) (arr_add (d_dx u) (d_dy v)).

Section Iterator.
Variables u_init v_init : array R.

(** The first part of [iterator]: the intermediate velocities with
    their edges set. [u_init] and [v_init] are the NumPy arrays of the
    cell of the initial conditions, read as globals: their rows and columns
    are converted as they are stored. The fourth assignment to [u_i] is
    [u_i.at[-1, :].set(u_init[:, -1])]. *)
Definition intermediate (u_prev v_prev : array R) : array R * array R :=
  let u_i := u_intermediate u_prev v_prev in
  let v_i := v_intermediate u_prev v_prev in
  let u_i := at_row_set 0 u_i (cast <$> row 0 u_init) in
  let u_i := at_col_set 0 u_i (cast <$> col 0 u_init) in
  let u_i := at_col_set (-1) u_i (cast <$> col (-1) u_init) in
  let u_i := at_row_set (-1) u_i (cast <$> col (-1) u_init) in
  let v_i := at_row_set 0 v_i (cast <$> row 0 v_init) in
  let v_i := at_col_set 0 v_i (cast <$> col 0 v_init) in
  let v_i := at_col_set (-1) v_i (cast <$> col (-1) v_init) in
  let v_i := at_row_set (-1) v_i (cast <$> row (-1) v_init) in
  (u_i, v_i).

(** [jax_debug_nans]: a NaN in an output of the compiled function
    stops the run. *)
Definition debug_nans (s : State R) : result (State R) :=
  if has_nan (st_u s) || has_nan (st_v s) || has_nan (st_p s)
  then Raise FloatingPointError else Ok s.

(** The rest of [iterator]: the pressure, the final velocities from
    [u_update(u_i, p_prev)] and [v_update(v_i, p_prev)], and their edges. *)
Definition iterator (s : State R) : result (State R) :=
  let '(u_i, v_i) := intermediate (st_u s) (st_v s) in
  let p_prev := st_p s in
  p_next ← p_update u_i v_i p_prev;
  u_next ← u_update u_i p_prev;
  v_next ← v_update v_i p_prev;
  let u_next := at_row_set 0 u_next (cast <$> row 0 u_init) in
  let u_next := at_col_set 0 u_next (cast <$> col 0 u_init) in
  let u_next := at_col_set (-1) u_next (cast <$> col (-1) u_init) in
  let u_next := at_row_set (-1) u_next (cast <$> row (-1) u_init) in
  let v_next := at_row_set 0 v_next (cast <$> row 0 v_init) in
  let v_next := at_col_set 0 v_next (cast <$> col 0 v_init) in
  let v_next := at_col_set (-1) v_next (cast <$> col (-1) v_init) in
  let v_next := at_row_set (-1) v_next (cast <$> row (-1) v_init) in
  debug_nans {| st_u := u_next; st_v := v_next; st_p := p_next |}.

(** [steps] passes through the body of the loop over the timesteps;
    the printing and plotting of the body are left out. *)
Fixpoint timestep_loop (steps : nat) (s : State R) : result (State R) :=
  match steps with
  | O => Ok s
  | S steps' => s' ← iterator s; timestep_loop steps' s'
  end.
End Iterator.

(** The run: the state starts as the initial fields, and
    [range(TIMESTEPS)] is empty when [TIMESTEPS] is not positive. *)
Definition run (u_init v_init p_init : array R) : result (State R) :=
  timestep_loop u_init v_init (Z.to_nat (TIMESTEPS g))
    {| st_u := u_init; st_v := v_init; st_p := p_init |}.
End Functions.

(** The three fields of a state are [N] by [N]. *)
Definition state_shape (N : nat) (s : State R) : Prop :=
  has_shape N N (st_u s) /\ has_shape N N (st_v s) /\ has_shape N N (st_p s).

(** The velocity of a state holds the converted initial one on the
    edges. *)
Definition edges_fixed (N : nat) (u_init v_init : array R) (s : State R) : Prop :=
  forall i j, boundary N N i j = true ->
    cell (st_u s) i j = cast (cell u_init i j) /\
    cell (st_v s) i j = cast (cell v_init i j).
End Notebook.

(** ** Printing and plotting

    The loop over the timesteps prints a line and draws two plots every
    thousandth pass, and a cell before it draws the initial fields. The
    calls of matplotlib are kept as events with the arrays they are given;
    what matplotlib does with them is not modelled. *)

(** [int(N_POINTS / 32)]: the division by 32 is exact in binary floating
    point for an [N_POINTS] below 2**53, and [int] truncates towards
    zero. *)
Definition IMAGE_SCALAR {R : Type} (g : Globals R) : Z :=
  Z.quot (N_POINTS g) 32.

(** An exception of the cells around the solver: one of the solver, or
    the ValueError of a slice with step zero or of an array of a size that
    NumPy refuses. *)
Inductive cell_exn : Type :=
  | OfSolver (e : exn)
  | ValueError.

Inductive outcome (A : Type) : Type :=
  | Done (a : A)
  | Failed (e : cell_exn).
Arguments Done {A} a.
Arguments Failed {A} e.

Inductive event (R : Type) : Type :=
  | Print (i : nat) (time : R)
  | Contourf (x y p : array R)
  | Quiver (x y u v : array R).
Arguments Print {R} i time.
Arguments Contourf {R} x y p.
Arguments Quiver {R} x y u v.

Section Strides.
Context {A : Type}.

(** The elements of [l] at the indices [range(0, len(l), k)], [k > 0]. *)
Definition every (k : nat) (l : list A) : list A :=
  omap (fun i => l !! (i * k)) (seq 0 ((length l + k - 1) / k)).

(** The elements that [l[::k]] keeps: a negative step walks back from the
    last element. *)
Definition every_step (k : Z) (l : list A) : list A :=
  match k with
  | Z0 => []
  | Zpos p => every (Pos.to_nat p) l
  | Zneg p => every (Pos.to_nat p) (reverse l)
  end.
End Strides.

Section Plots.
Context {R : Type} `{!Scalar R}.

(** [a[::k, ::k]]: a step of zero raises ValueError, here [None]. *)
Definition view (k : Z) (a : array R) : option (array R) :=
  if (k =? 0)%Z then None else Some (every_step k <$> every_step k a).

(** The indices of the lines printed. *)
Definition printed (log : list (event R)) : list nat :=
  omap (fun e => match e with Print i _ => Some i | _ => None end) log.

Section Cells.
Variable g : Globals R.
Variables X Y : array R.

(** [plt.contourf(X[::k, ::k], Y[::k, ::k], p[::k, ::k], ...)] and
    [plt.quiver(X[::k, ::k], Y[::k, ::k], u[::k, ::k], v[::k, ::k])] with
    [k = IMAGE_SCALAR]. *)
Definition plots (s : State R) : list (event R) * option cell_exn :=
  let k := IMAGE_SCALAR g in
  match view k X, view k Y, view k (st_p s), view k (st_u s),
        view k (st_v s) with
  | Some x, Some y, Some p, Some u, Some v =>
      ([Contourf x y p; Quiver x y u v], None)
  | _, _, _, _, _ => ([], Some ValueError)
  end.

(** The body of [if i % 1000 == 0]: the line
    [Timestep {i}, time = {i*dt}] and the plots of the current state. *)
Definition snapshot (i : nat) (s : State R) : list (event R) * option cell_exn :=
  if bool_decide (i mod 1000 = 0) then
    let line := Print i (mul (of_int (Z.of_nat i)) (dt g)) in
    let '(drawn, err) := plots s in
    (line :: drawn, err)
  else ([], None).

Section Loop.
Variables u_init v_init : array R.

(** The loop over the timesteps with what it prints and plots: [steps]
    passes from the index [i]. *)
Fixpoint logged_loop (i steps : nat) (s : State R)
    : list (event R) * outcome (State R) :=
  match steps with
  | O => ([], Done s)
  | S steps' =>
      match iterator g u_init v_init s with
      | Raise e => ([], Failed (OfSolver e))
      | Ok s' =>
          let '(out, err) := snapshot i s' in
          match err with
          | Some e => (out, Failed e)
          | None =>
              let '(log, r) := logged_loop (S i) steps' s' in
              (out ++ log, r)
          end
      end
  end.
End Loop.

(** The cell that plots the initial fields, and the loop after it. *)
Definition logged_run (u_init v_init p_init : array R)
    : list (event R) * outcome (State R) :=
  let s := {| st_u := u_init; st_v := v_init; st_p := p_init |} in
  let '(out, err) := plots s in
  match err with
  | Some e => (out, Failed e)
  | None =>
      let '(log, r) :=
        logged_loop u_init v_init 0 (Z.to_nat (TIMESTEPS g)) s in
      (out ++ log, r)
  end.
End Cells.

(** The cell that draws the random field of which the initial velocities
    are made: [compute_spectrum_map(pk, N_POINTS)] and
    [gaussian_mock(spectrum_map.flatten(), N_POINTS)]. The first calls
    [np.zeros((size, size))], which raises ValueError for a negative size;
    the second calls [np.fft.ifft2] on a [size] by [size] array, which
    raises ValueError for the empty array of size zero. With one point or
    more the cell makes a field; what the field holds is random and is left
    to the arguments of [logged_notebook]. [Some e] is the exception. *)
Definition field_synthesis (n_points : Z) : option cell_exn :=
  if (n_points <=? 0)%Z then Some ValueError else None.

(** The notebook with its plots: the constants, the random field, the
    initial fields made of it and their plot, the loop. *)
Definition logged_notebook (n_points : Z) (dt' : R) (timesteps : Z)
    (viscosity density : R) (jacobi_iterations : Z)
    (X Y u_init v_init p_init : array R)
    : list (event R) * outcome (State R) :=
  match constants n_points dt' timesteps viscosity density
          jacobi_iterations with
  | Raise e => ([], Failed (OfSolver e))
  | Ok g =>
      match field_synthesis n_points with
      | Some e => ([], Failed e)
      | None => logged_run g X Y u_init v_init p_init
      end
  end.
End Plots.

(** ** Binary64 scalars

    The kernel's IEEE 754 binary64 numbers, for running the model with
    binary64 arrays: the Python floats and the elements of the arrays are
    of one kind, and the conversion changes nothing. *)

Definition float_of_Z (z : Z) : float :=
  match z with
  | Z0 => 0%float
  | Zpos p => PrimFloat.of_uint63 (Uint63.of_pos p)
  | Zneg p => PrimFloat.opp (PrimFloat.of_uint63 (Uint63.of_pos p))
  end.

Definition float_pow (x : float) (k : Z) : float :=
  match k with
  | Z0 => 1%float
  | Zpos p => Pos.iter (PrimFloat.mul x) 1%float p
  | Zneg p => PrimFloat.div 1%float (Pos.iter (PrimFloat.mul x) 1%float p)
  end.

#[global] Instance float_scalar : Scalar float := {|
  zero := 0%float;
  quarter := 0.25%float;
  of_int := float_of_Z;
  add := PrimFloat.add;
  sub := PrimFloat.sub;
  mul := PrimFloat.mul;
  div := PrimFloat.div;
  pow := float_pow;
  is_zero := fun x => PrimFloat.eqb x 0%float;
  is_nan := PrimFloat.is_nan;
  cast := fun x => x
|}.

(** ** Binary32 arrays

    The arrays of JAX hold binary32 numbers unless [jax_enable_x64] is set,
    and the notebook does not set it. [to_binary32] is the conversion of a
    binary64 number: the nearest binary32 number, ties to even, with 24
    bits of precision and exponents up to 128; zeros, infinities and NaN
    are kept. The result is again a binary64 number. *)

Definition to_binary32 (x : float) : float :=
  match Prim2SF x with
  | S754_finite s m e => SF2Prim (binary_round 24 128 s m e)
  | _ => x
  end.

(** An operation on array elements converts what it is given (the element
    of a NumPy array, a Python float) and rounds what it computes. A
    product or quotient of two Python floats ([dt * VISCOSITY],
    [DENSITY / dt]) is binary64 in Python and converted when it meets an
    array; here its operands are converted first, which can change the
    last bit of a product with it. *)
Definition binary32_op (op : float -> float -> float) (x y : float) : float :=
  to_binary32 (op (to_binary32 x) (to_binary32 y)).

Definition float32_scalar : Scalar float := {|
  zero := 0%float;
  quarter := 0.25%float;
  of_int := fun z => to_binary32 (float_of_Z z);
  add := binary32_op PrimFloat.add;
  sub := binary32_op PrimFloat.sub;
  mul := binary32_op PrimFloat.mul;
  div := binary32_op PrimFloat.div;
  pow := fun x k => to_binary32 (float_pow x k);
  is_zero := fun x => PrimFloat.eqb x 0%float;
  is_nan := PrimFloat.is_nan;
  cast := to_binary32
|}.

(** ** A small grid

    The constants of the notebook on a grid of three points per axis
    ([ELEMENT_LENGTH] is then 0.5), with the iteration count and the number
    of timesteps left open. [dt] and [VISCOSITY] are the binary64 values of
    the literals 0.00001 and 0.1. *)

Definition grid3 (jacobi_iterations timesteps : Z) : Globals float := {|
  N_POINTS := 3;
  dt := 0x1.4f8b588e368f1p-17%float;
  TIMESTEPS := timesteps;
  VISCOSITY := 0x1.999999999999ap-4%float;
  DENSITY := 1%float;
  JACOBI_ITERATIONS := jacobi_iterations;
  ELEMENT_LENGTH := 0.5%float
|}.

Definition zeros3 : array float :=
  [[0; 0; 0]; [0; 0; 0]; [0; 0; 0]]%float.
Definition ones3 : array float :=
  [[1; 1; 1]; [1; 1; 1]; [1; 1; 1]]%float.
Definition count3 : array float :=
  [[1; 2; 3]; [4; 5; 6]; [7; 8; 9]]%float.
Definition bump3 : array float :=
  [[0; 0; 0]; [0; 0; 2]; [0; 0; 0]]%float.

(** A velocity of 0.1 in every cell, as binary64 numbers. *)
Definition tenths3 : array float :=
  [[0x1.999999999999ap-4; 0x1.999999999999ap-4; 0x1.999999999999ap-4];
   [0x1.999999999999ap-4; 0x1.999999999999ap-4; 0x1.999999999999ap-4];
   [0x1.999999999999ap-4; 0x1.999999999999ap-4; 0x1.999999999999ap-4]]%float.

(** The state after two timesteps from [tenths3] velocities and zero
    pressure, in binary32 arrays. *)
Definition two_steps_binary32 : State float :=
  Eval vm_compute in
    match @timestep_loop float float32_scalar (grid3 2 2) tenths3 tenths3 2
            {| st_u := tenths3; st_v := tenths3; st_p := zeros3 |} with
    | Ok s => s
    | Raise _ => {| st_u := []; st_v := []; st_p := [] |}
    end.

(** The state of the loop after two timesteps from [count3] velocities and
    [ones3] pressure. *)
Definition two_steps : State float :=
  Eval vm_compute in
    match timestep_loop (grid3 2 2) count3 count3 2
            {| st_u := count3; st_v := count3; st_p := ones3 |} with
    | Ok s => s
    | Raise _ => {| st_u := []; st_v := []; st_p := [] |}
    end.

(** The state after the first of these timesteps. *)
Definition one_step : State float :=
  Eval vm_compute in
    match iterator (grid3 2 2) count3 count3
            {| st_u := count3; st_v := count3; st_p := ones3 |} with
    | Ok s => s
    | Raise _ => {| st_u := []; st_v := []; st_p := [] |}
    end.

(** Fields that differ from [count3] in the first and last row, in the
    first and last column, in the four corners, and in the interior. *)
Definition count3_rows : array float :=
  [[0; 0; 0]; [4; 5; 6]; [0; 0; 0]]%float.
Definition count3_columns : array float :=
  [[0; 2; 0]; [0; 5; 0]; [0; 8; 0]]%float.
Definition count3_corners : array float :=
  [[0; 2; 0]; [4; 5; 6]; [0; 8; 0]]%float.
Definition count3_interior : array float :=
  [[1; 2; 3]; [4; 0; 6]; [7; 8; 9]]%float.

(** A field of two rows. *)
Definition strip : array float :=
  [[1; 2; 3]; [4; 5; 6]]%float.

(** The predictor from [count3] velocities with the edges of [count3]. *)
Definition edged3 : array float :=
  tab 3 3 (fun i j =>
    if boundary 3 3 i j then cell count3 i j
    else cell (u_intermediate (grid3 2 2) count3 count3) i j).

(** ** A grid of 32 points per axis *)

Definition grid32 (jacobi_iterations timesteps : Z) : Globals float := {|
  N_POINTS := 32;
  dt := 0x1.4f8b588e368f1p-17%float;
  TIMESTEPS := timesteps;
  VISCOSITY := 0x1.999999999999ap-4%float;
  DENSITY := 1%float;
  JACOBI_ITERATIONS := jacobi_iterations;
  ELEMENT_LENGTH := (1 / 31)%float
|}.

Definition wave32 : array float :=
  tab 32 32 (fun i j => float_of_Z (Z.of_nat ((i * j) mod 7))).
Definition zeros32 : array float :=
  tab 32 32 (fun _ _ => 0%float).
Definition mesh_x : array float :=
  tab 32 32 (fun _ j => (float_of_Z (Z.of_nat j) / 31)%float).
Definition mesh_y : array float :=
  tab 32 32 (fun i _ => (float_of_Z (Z.of_nat i) / 31)%float).

(** The state after two timesteps from [wave32] velocities and zero
    pressure. *)
Definition two_steps32 : State float :=
  Eval vm_compute in
    match run (grid32 1 2) wave32 wave32 zeros32 with
    | Ok s => s
    | Raise _ => {| st_u := []; st_v := []; st_p := [] |}
    end.

(** * Verification *)

(** ** Slice bounds and indices *)

Ltac bounds :=
  unfold slice_lo, slice_hi, py_bound, read_index, write_index, py_index in *;
  simpl in *; try lia.

Lemma slice_hi_le (len : nat) (stop : option Z) : slice_hi len stop <= len.
Proof. destruct stop as [k|]; bounds. destruct (Z.ltb_spec k 0); lia. Qed.

Lemma write_index_Some (len : nat) (k : Z) (i : nat) :
  write_index len k = Some i <->
  (0 <= py_index len k < Z.of_nat len)%Z /\ i = Z.to_nat (py_index len k).
Proof.
  unfold write_index. split.
  - intros E. destruct (0 <=? _)%Z eqn:E1; destruct (_ <? _)%Z eqn:E2;
      simpl in E; try discriminate. inversion E. lia.
  - intros [[? ?] ->].
    replace (0 <=? py_index len k)%Z with true by lia.
    replace (py_index len k <? Z.of_nat len)%Z with true by lia. done.
Qed.

(** ** Tabulated lists *)

Section Tab1.
Context {A : Type}.
Implicit Types (F G : nat -> A) (l : list A).

Lemma lookup_tab1 n F i :
  tab1 n F !! i = if decide (i < n) then Some (F i) else None.
Proof.
  unfold tab1. rewrite list_lookup_fmap. case_decide.
  - by rewrite lookup_seq_lt.
  - by rewrite lookup_seq_ge by lia.
Qed.

Lemma length_tab1 n F : length (tab1 n F) = n.
Proof. unfold tab1. by rewrite length_fmap, length_seq. Qed.

Lemma tab1_ext n F G : (forall i, i < n -> F i = G i) -> tab1 n F = tab1 n G.
Proof.
  intros E. apply list_eq. intros i. rewrite !lookup_tab1.
  case_decide; [by rewrite E|done].
Qed.

Lemma list_tab1 `{!Inhabited A} l : l = tab1 (length l) (fun i => l !!! i).
Proof.
  apply list_eq. intros i. rewrite lookup_tab1. case_decide.
  - by apply list_lookup_lookup_total_lt.
  - apply lookup_ge_None. lia.
Qed.

Lemma py_slice_tab1 s e n F :
  py_slice s e (tab1 n F) =
  tab1 (slice_hi n e - slice_lo n s) (fun i => F (slice_lo n s + i)).
Proof.
  unfold py_slice. rewrite length_tab1. apply list_eq. intros i.
  rewrite lookup_take, lookup_drop, !lookup_tab1.
  pose proof (slice_hi_le n e). repeat case_decide; done || lia.
Qed.

Lemma at_slice_set_tab1 s e n F G :
  at_slice_set s e (tab1 n F) (tab1 (slice_hi n e - slice_lo n s) G) =
  tab1 n (fun i => if decide (slice_lo n s <= i < slice_hi n e)
                   then G (i - slice_lo n s) else F i).
Proof.
  unfold at_slice_set. rewrite length_tab1.
  rewrite take_ge by (rewrite length_tab1; lia).
  pose proof (slice_hi_le n e).
  apply list_eq. intros i. rewrite lookup_tab1.
  destruct (decide (slice_lo n s <= i < slice_hi n e)) as [Hi|Hi].
  - rewrite list_lookup_inserts by (rewrite length_tab1; lia).
    rewrite lookup_tab1. repeat case_decide; done || lia.
  - destruct (decide (i < slice_lo n s)).
    + rewrite list_lookup_inserts_lt by lia. by rewrite lookup_tab1.
    + rewrite list_lookup_inserts_ge by (rewrite length_tab1; lia).
      by rewrite lookup_tab1.
Qed.

Lemma getitem_tab1 `{!Inhabited A} k n F :
  0 < n -> getitem k (tab1 n F) = F (read_index n k).
Proof.
  intros Hn. unfold getitem. rewrite length_tab1.
  apply list_lookup_total_correct. rewrite lookup_tab1.
  case_decide; [done|]. bounds.
Qed.

Lemma at_set_tab1 k n F x :
  at_set k (tab1 n F) x =
  tab1 n (fun i => if decide (write_index n k = Some i) then x else F i).
Proof.
  unfold at_set. rewrite length_tab1.
  destruct (write_index n k) as [w|] eqn:E.
  - pose proof (proj1 (write_index_Some n k w) E) as [Hk Hw].
    apply list_eq. intros i. rewrite list_lookup_insert, !lookup_tab1.
    rewrite length_tab1.
    repeat case_decide; destruct_and?; simplify_eq; done || lia || congruence.
  - apply tab1_ext. intros i _. by case_decide.
Qed.
End Tab1.

Lemma fmap_tab1 {A B : Type} (f : A -> B) n (F : nat -> A) :
  f <$> tab1 n F = tab1 n (fun i => f (F i)).
Proof. unfold tab1. by rewrite <- list_fmap_compose. Qed.

Lemma zip_with_tab1 {A B C : Type} (f : A -> B -> C) n
    (F : nat -> A) (G : nat -> B) :
  zip_with f (tab1 n F) (tab1 n G) = tab1 n (fun i => f (F i) (G i)).
Proof.
  apply list_eq. intros i. rewrite lookup_zip_with, !lookup_tab1.
  by case_decide.
Qed.

(** ** Tabulated arrays *)

Section Tab.
Context {R : Type} `{!Scalar R}.
Implicit Types (F G : nat -> nat -> R) (a b : array R).

Lemma tab_ext n m F G :
  (forall i j, i < n -> j < m -> F i j = G i j) -> tab n m F = tab n m G.
Proof.
  intros E. apply tab1_ext. intros i Hi. apply tab1_ext. intros j Hj.
  by apply E.
Qed.

Lemma get_tab n m F i j :
  get (tab n m F) i j = if decide (i < n /\ j < m) then Some (F i j) else None.
Proof.
  unfold get, tab. rewrite lookup_tab1.
  destruct (decide (i < n)); simpl; [rewrite lookup_tab1|];
    repeat case_decide; done || lia.
Qed.

Lemma cell_tab n m F i j : i < n -> j < m -> cell (tab n m F) i j = F i j.
Proof.
  intros Hi Hj. unfold cell. rewrite get_tab. case_decide; [done|lia].
Qed.

Lemma has_shape_tab n m F : has_shape n m (tab n m F).
Proof.
  split; [apply length_tab1|]. apply Forall_lookup. intros i r.
  unfold tab. rewrite lookup_tab1. case_decide; [|done].
  intros [= <-]. apply length_tab1.
Qed.

(** Every array of [n] rows and [m] columns is the table of its cells. *)
Lemma tab_cell n m a : has_shape n m a -> a = tab n m (cell a).
Proof.
  intros [Hn Hm]. apply list_eq. intros i. unfold tab.
  rewrite lookup_tab1. case_decide as Hi.
  - destruct (lookup_lt_is_Some_2 a i) as [r Hr]; [lia|].
    rewrite Hr. f_equal. apply list_eq. intros j.
    rewrite lookup_tab1. unfold cell, get. rewrite Hr. simpl.
    pose proof (Forall_lookup_1 _ _ _ _ Hm Hr) as Hlen. simpl in Hlen.
    case_decide.
    + destruct (lookup_lt_is_Some_2 r j) as [x Hx]; [lia|]. by rewrite Hx.
    + apply lookup_ge_None. lia.
  - apply lookup_ge_None. lia.
Qed.

Lemma zeros_like_tab n m F :
  zeros_like (tab n m F) = tab n m (fun _ _ => zero).
Proof.
  unfold zeros_like, tab. rewrite fmap_tab1. apply tab1_ext. intros i _.
  apply (fmap_tab1 (fun _ : R => zero)).
Qed.

Lemma arr_map_tab f n m F :
  arr_map f (tab n m F) = tab n m (fun i j => f (F i j)).
Proof.
  unfold arr_map, tab. rewrite fmap_tab1. apply tab1_ext. intros i _.
  apply fmap_tab1.
Qed.

Lemma arr_zip_tab f n m F G :
  arr_zip f (tab n m F) (tab n m G) = tab n m (fun i j => f (F i j) (G i j)).
Proof.
  unfold arr_zip, tab. rewrite zip_with_tab1. apply tab1_ext. intros i _.
  apply zip_with_tab1.
Qed.

Lemma slice2_tab rs re cs ce n m F :
  slice2 rs re cs ce (tab n m F) =
  tab (slice_hi n re - slice_lo n rs) (slice_hi m ce - slice_lo m cs)
      (fun i j => F (slice_lo n rs + i) (slice_lo m cs + j)).
Proof.
  unfold slice2, tab. rewrite py_slice_tab1, fmap_tab1.
  apply tab1_ext. intros i _. apply py_slice_tab1.
Qed.

Lemma at_slice2_set_tab rs re cs ce n m F G :
  at_slice2_set rs re cs ce (tab n m F)
    (tab (slice_hi n re - slice_lo n rs) (slice_hi m ce - slice_lo m cs) G) =
  tab n m (fun i j =>
    if decide (slice_lo n rs <= i < slice_hi n re /\
               slice_lo m cs <= j < slice_hi m ce)
    then G (i - slice_lo n rs) (j - slice_lo m cs) else F i j).
Proof.
  unfold at_slice2_set, tab. rewrite py_slice_tab1, zip_with_tab1.
  rewrite at_slice_set_tab1. apply tab1_ext. intros i Hi.
  case_decide as Hr.
  - rewrite at_slice_set_tab1. apply tab1_ext. intros j _.
    repeat case_decide; first [done | exfalso; lia | f_equal; lia].
  - apply tab1_ext. intros j _. case_decide; [exfalso; lia|done].
Qed.

Lemma row_tab k n m F :
  0 < n -> row k (tab n m F) = tab1 m (F (read_index n k)).
Proof. intros Hn. unfold row, tab. by rewrite getitem_tab1. Qed.

Lemma col_tab k n m F :
  0 < m -> col k (tab n m F) = tab1 n (fun i => F i (read_index m k)).
Proof.
  intros Hm. unfold col, tab. rewrite fmap_tab1. apply tab1_ext.
  intros i _. by rewrite getitem_tab1.
Qed.

Lemma at_row_set_tab k n m F (V : nat -> R) :
  at_row_set k (tab n m F) (tab1 m V) =
  tab n m (fun i j => if decide (write_index n k = Some i) then V j else F i j).
Proof.
  unfold at_row_set, tab. rewrite at_set_tab1. apply tab1_ext. intros i _.
  case_decide; [done|]. done.
Qed.

Lemma at_col_set_tab k n m F (V : nat -> R) :
  at_col_set k (tab n m F) (tab1 n V) =
  tab n m (fun i j => if decide (write_index m k = Some j) then V i else F i j).
Proof.
  unfold at_col_set, tab. rewrite zip_with_tab1. apply tab1_ext. intros i _.
  apply at_set_tab1.
Qed.
End Tab.

(** ** The slices of the stencils *)

Section Stencil.
Context {R : Type} `{!Scalar R}.
Implicit Types (F G : nat -> nat -> R) (a : array R).

Lemma stencil_mid : stencil_slice mid 1.
Proof. intros len. unfold mid. bounds. Qed.
Lemma stencil_upper : stencil_slice upper 2.
Proof. intros len. unfold upper. bounds. Qed.
Lemma stencil_lower : stencil_slice lower 0.
Proof. intros len. unfold lower. bounds. Qed.

Lemma sub_array_tab rows cols ro co n m F :
  stencil_slice rows ro -> stencil_slice cols co ->
  sub_array rows cols (tab n m F) =
  tab (n - 2) (m - 2) (fun i j => F (i + ro) (j + co)).
Proof.
  intros Hr Hc. unfold sub_array. rewrite slice2_tab.
  destruct (Hr n) as [-> Hro], (Hc m) as [-> Hco].
  apply tab_ext. intros i j Hi Hj. rewrite Hro, Hco by lia. f_equal; lia.
Qed.

Lemma sub_array_mid_upper n m F :
  sub_array mid upper (tab n m F) =
  tab (n - 2) (m - 2) (fun i j => F (i + 1) (j + 2)).
Proof. apply sub_array_tab; [apply stencil_mid | apply stencil_upper]. Qed.

Lemma sub_array_mid_lower n m F :
  sub_array mid lower (tab n m F) =
  tab (n - 2) (m - 2) (fun i j => F (i + 1) (j + 0)).
Proof. apply sub_array_tab; [apply stencil_mid | apply stencil_lower]. Qed.

Lemma sub_array_upper_mid n m F :
  sub_array upper mid (tab n m F) =
  tab (n - 2) (m - 2) (fun i j => F (i + 2) (j + 1)).
Proof. apply sub_array_tab; [apply stencil_upper | apply stencil_mid]. Qed.

Lemma sub_array_lower_mid n m F :
  sub_array lower mid (tab n m F) =
  tab (n - 2) (m - 2) (fun i j => F (i + 0) (j + 1)).
Proof. apply sub_array_tab; [apply stencil_lower | apply stencil_mid]. Qed.

Lemma sub_array_mid_mid n m F :
  sub_array mid mid (tab n m F) =
  tab (n - 2) (m - 2) (fun i j => F (i + 1) (j + 1)).
Proof. apply sub_array_tab; apply stencil_mid. Qed.

(** Writing the interior. *)
Lemma at_sub_array_set_mid n m F G :
  at_sub_array_set mid mid (tab n m F) (tab (n - 2) (m - 2) G) =
  tab n m (fun i j => if interior n m i j then G (i - 1) (j - 1) else F i j).
Proof.
  unfold at_sub_array_set.
  destruct (stencil_mid n) as [En Hn], (stencil_mid m) as [Em Hm].
  rewrite <- En, <- Em, at_slice2_set_tab. apply tab_ext.
  intros i j Hi Hj. unfold interior.
  pose proof (slice_hi_le n mid.2). pose proof (slice_hi_le m mid.2).
  case_decide; case_bool_decide; try done.
  - rewrite Hn, Hm by lia. done.
  - exfalso. unfold mid in *. bounds.
  - exfalso. unfold mid in *. bounds.
Qed.
End Stencil.

Create Rewrite HintDb tab.
#[global] Hint Rewrite
  @zeros_like_tab @arr_map_tab @arr_zip_tab
  @sub_array_mid_upper @sub_array_mid_lower @sub_array_upper_mid
  @sub_array_lower_mid @sub_array_mid_mid @at_sub_array_set_mid : tab.

(** Index arithmetic under the cells of a table. *)
Ltac cells := repeat (f_equal; try lia).

(** ** The differential operators *)

Section Operators.
Context {R : Type} `{!Scalar R}.
Variable g : Globals R.
Implicit Types (F : nat -> nat -> R) (f : array R).

Lemma d_dx_tab n m F :
  d_dx g (tab n m F) =
  tab n m (fun i j =>
    if interior n m i j
    then div (sub (F i (j + 1)) (F i (j - 1)))
             (mul (of_int 2) (ELEMENT_LENGTH g))
    else zero).
Proof.
  unfold d_dx, arr_div_scal, arr_sub. autorewrite with tab.
  apply tab_ext. intros i j _ _. unfold interior.
  case_bool_decide; [cells|done].
Qed.

Lemma d_dy_tab n m F :
  d_dy g (tab n m F) =
  tab n m (fun i j =>
    if interior n m i j
    then div (sub (F (i + 1) j) (F (i - 1) j))
             (mul (of_int 2) (ELEMENT_LENGTH g))
    else zero).
Proof.
  unfold d_dy, arr_div_scal, arr_sub. autorewrite with tab.
  apply tab_ext. intros i j _ _. unfold interior.
  case_bool_decide; [cells|done].
Qed.

Lemma d2_dx2_tab n m F :
  d2_dx2 g (tab n m F) =
  tab n m (fun i j =>
    if interior n m i j
    then div (add (sub (F i (j + 1)) (mul (of_int 2) (F i j))) (F i (j - 1)))
             (pow (ELEMENT_LENGTH g) 2)
    else zero).
Proof.
  unfold d2_dx2, arr_div_scal, arr_sub, arr_add, scal_mul.
  autorewrite with tab.
  apply tab_ext. intros i j _ _. unfold interior.
  case_bool_decide; [cells|done].
Qed.

Lemma d2_dy2_tab n m F :
  d2_dy2 g (tab n m F) =
  tab n m (fun i j =>
    if interior n m i j
    then div (add (sub (F (i + 1) j) (mul (of_int 2) (F i j))) (F (i - 1) j))
             (pow (ELEMENT_LENGTH g) 2)
    else zero).
Proof.
  unfold d2_dy2, arr_div_scal, arr_sub, arr_add, scal_mul.
  autorewrite with tab.
  apply tab_ext. intros i j _ _. unfold interior.
  case_bool_decide; [cells|done].
Qed.

Lemma laplacian_tab n m F :
  laplacian g (tab n m F) =
  tab n m (fun i j =>
    add (cell (d2_dx2 g (tab n m F)) i j) (cell (d2_dy2 g (tab n m F)) i j)).
Proof.
  unfold laplacian, arr_add. rewrite d2_dx2_tab, d2_dy2_tab, arr_zip_tab.
  apply tab_ext. intros i j Hi Hj. by rewrite !cell_tab.
Qed.
End Operators.

Section OperatorCells.
Context {R : Type} `{!Scalar R}.
Variable g : Globals R.
Variables n m : nat.
Variable f : array R.
Hypothesis Hf : has_shape n m f.

Lemma has_shape_d_dx : has_shape n m (d_dx g f).
Proof. rewrite (tab_cell n m f Hf), d_dx_tab. apply has_shape_tab. Qed.
Lemma has_shape_d_dy : has_shape n m (d_dy g f).
Proof. rewrite (tab_cell n m f Hf), d_dy_tab. apply has_shape_tab. Qed.
Lemma has_shape_d2_dx2 : has_shape n m (d2_dx2 g f).
Proof. rewrite (tab_cell n m f Hf), d2_dx2_tab. apply has_shape_tab. Qed.
Lemma has_shape_d2_dy2 : has_shape n m (d2_dy2 g f).
Proof. rewrite (tab_cell n m f Hf), d2_dy2_tab. apply has_shape_tab. Qed.
Lemma has_shape_laplacian : has_shape n m (laplacian g f).
Proof. rewrite (tab_cell n m f Hf), laplacian_tab. apply has_shape_tab. Qed.

Lemma cell_d_dx i j :
  i < n -> j < m ->
  cell (d_dx g f) i j =
  if interior n m i j
  then div (sub (cell f i (j + 1)) (cell f i (j - 1)))
           (mul (of_int 2) (ELEMENT_LENGTH g))
  else zero.
Proof.
  intros Hi Hj. rewrite (tab_cell n m f Hf) at 1.
  by rewrite d_dx_tab, cell_tab.
Qed.

Lemma cell_d_dy i j :
  i < n -> j < m ->
  cell (d_dy g f) i j =
  if interior n m i j
  then div (sub (cell f (i + 1) j) (cell f (i - 1) j))
           (mul (of_int 2) (ELEMENT_LENGTH g))
  else zero.
Proof.
  intros Hi Hj. rewrite (tab_cell n m f Hf) at 1.
  by rewrite d_dy_tab, cell_tab.
Qed.

Lemma cell_d2_dx2 i j :
  i < n -> j < m ->
  cell (d2_dx2 g f) i j =
  if interior n m i j
  then div (add (sub (cell f i (j + 1)) (mul (of_int 2) (cell f i j)))
                (cell f i (j - 1)))
           (pow (ELEMENT_LENGTH g) 2)
  else zero.
Proof.
  intros Hi Hj. rewrite (tab_cell n m f Hf) at 1.
  by rewrite d2_dx2_tab, cell_tab.
Qed.

Lemma cell_d2_dy2 i j :
  i < n -> j < m ->
  cell (d2_dy2 g f) i j =
  if interior n m i j
  then div (add (sub (cell f (i + 1) j) (mul (of_int 2) (cell f i j)))
                (cell f (i - 1) j))
           (pow (ELEMENT_LENGTH g) 2)
  else zero.
Proof.
  intros Hi Hj. rewrite (tab_cell n m f Hf) at 1.
  by rewrite d2_dy2_tab, cell_tab.
Qed.

Lemma cell_laplacian i j :
  i < n -> j < m ->
  cell (laplacian g f) i j =
  add (cell (d2_dx2 g f) i j) (cell (d2_dy2 g f) i j).
Proof.
  intros Hi Hj. rewrite (tab_cell n m f Hf).
  by rewrite laplacian_tab, cell_tab.
Qed.
End OperatorCells.

Lemma interior_not_boundary n m i j :
  boundary n m i j = true -> interior n m i j = false.
Proof.
  unfold boundary, interior. intros Hb.
  apply bool_decide_eq_true in Hb. apply bool_decide_eq_false. lia.
Qed.

Lemma interior_lt n m i j : interior n m i j = true -> i < n /\ j < m.
Proof. unfold interior. intros Hb. apply bool_decide_eq_true in Hb. lia. Qed.

Lemma boundary_lt n m i j : boundary n m i j = true -> i < n /\ j < m.
Proof. unfold boundary. intros Hb. apply bool_decide_eq_true in Hb. lia. Qed.

(** C6. On an [n] by [m] field each of [d_dx], [d_dy], [d2_dx2], [d2_dy2]
    and [laplacian] returns an [n] by [m] field; it is zero on the four edges
    (for the Laplacian, as the sum of two zeros); in the interior
    [1 <= i <= n-2], [1 <= j <= m-2] the four derivatives are the centred
    differences [(f[i,j+1] - f[i,j-1]) / (2h)], [(f[i+1,j] - f[i-1,j]) / (2h)],
    [(f[i,j+1] - 2 f[i,j] + f[i,j-1]) / h**2] and
    [(f[i+1,j] - 2 f[i,j] + f[i-1,j]) / h**2]; and the Laplacian is the
    element-wise sum of the two second derivatives.  The operators are
    functions of the value [f], which they cannot change. *)
Theorem differential_operators_correct {R : Type} `{!Scalar R}
    (g : Globals R) (n m : nat) (f : array R) :
  has_shape n m f ->
  add zero zero = zero ->
  (has_shape n m (d_dx g f) /\ has_shape n m (d_dy g f) /\
   has_shape n m (d2_dx2 g f) /\ has_shape n m (d2_dy2 g f) /\
   has_shape n m (laplacian g f)) /\
  (forall i j, boundary n m i j = true ->
     cell (d_dx g f) i j = zero /\ cell (d_dy g f) i j = zero /\
     cell (d2_dx2 g f) i j = zero /\ cell (d2_dy2 g f) i j = zero /\
     cell (laplacian g f) i j = zero) /\
  (forall i j, interior n m i j = true ->
     cell (d_dx g f) i j =
       div (sub (cell f i (j + 1)) (cell f i (j - 1)))
           (mul (of_int 2) (ELEMENT_LENGTH g)) /\
     cell (d_dy g f) i j =
       div (sub (cell f (i + 1) j) (cell f (i - 1) j))
           (mul (of_int 2) (ELEMENT_LENGTH g)) /\
     cell (d2_dx2 g f) i j =
       div (add (sub (cell f i (j + 1)) (mul (of_int 2) (cell f i j)))
                (cell f i (j - 1)))
           (pow (ELEMENT_LENGTH g) 2) /\
     cell (d2_dy2 g f) i j =
       div (add (sub (cell f (i + 1) j) (mul (of_int 2) (cell f i j)))
                (cell f (i - 1) j))
           (pow (ELEMENT_LENGTH g) 2)) /\
  laplacian g f = arr_add (d2_dx2 g f) (d2_dy2 g f) /\
  (forall i j, i < n -> j < m ->
     cell (laplacian g f) i j =
       add (cell (d2_dx2 g f) i j) (cell (d2_dy2 g f) i j)).
Proof.
  intros Hf H0. split; [|split; [|split; [|split]]].
  - auto 10 using has_shape_d_dx, has_shape_d_dy, has_shape_d2_dx2,
      has_shape_d2_dy2, has_shape_laplacian.
  - intros i j Hb. destruct (boundary_lt _ _ _ _ Hb) as [Hi Hj].
    apply interior_not_boundary in Hb.
    rewrite (cell_laplacian g n m f), (cell_d_dx g n m f),
      (cell_d_dy g n m f), (cell_d2_dx2 g n m f), (cell_d2_dy2 g n m f),
      Hb by done.
    auto.
  - intros i j Hin. destruct (interior_lt _ _ _ _ Hin) as [Hi Hj].
    rewrite (cell_d_dx g n m f), (cell_d_dy g n m f),
      (cell_d2_dx2 g n m f), (cell_d2_dy2 g n m f), Hin by done.
    auto.
  - done.
  - intros i j Hi Hj. by apply (cell_laplacian g n m f).
Qed.

(** ** Shapes and cells of the array arithmetic *)

Section Arithmetic.
Context {R : Type} `{!Scalar R}.
Implicit Types (a b : array R).

Lemma has_shape_arr_map f n m a : has_shape n m a -> has_shape n m (arr_map f a).
Proof.
  intros Ha. rewrite (tab_cell n m a Ha), arr_map_tab. apply has_shape_tab.
Qed.

Lemma has_shape_arr_zip f n m a b :
  has_shape n m a -> has_shape n m b -> has_shape n m (arr_zip f a b).
Proof.
  intros Ha Hb. rewrite (tab_cell n m a Ha), (tab_cell n m b Hb), arr_zip_tab.
  apply has_shape_tab.
Qed.

Lemma cell_arr_map f n m a i j :
  has_shape n m a -> i < n -> j < m ->
  cell (arr_map f a) i j = f (cell a i j).
Proof.
  intros Ha Hi Hj. rewrite (tab_cell n m a Ha) at 1.
  by rewrite arr_map_tab, cell_tab.
Qed.

Lemma cell_arr_zip f n m a b i j :
  has_shape n m a -> has_shape n m b -> i < n -> j < m ->
  cell (arr_zip f a b) i j = f (cell a i j) (cell b i j).
Proof.
  intros Ha Hb Hi Hj.
  rewrite (tab_cell n m a Ha) at 1. rewrite (tab_cell n m b Hb) at 1.
  by rewrite arr_zip_tab, cell_tab.
Qed.

Lemma length_row k n m a : 0 < n -> has_shape n m a -> length (row k a) = m.
Proof.
  intros Hn Ha. rewrite (tab_cell n m a Ha), row_tab by done.
  apply length_tab1.
Qed.

Lemma length_col k n m a : 0 < m -> has_shape n m a -> length (col k a) = n.
Proof.
  intros Hm Ha. rewrite (tab_cell n m a Ha), col_tab by done.
  apply length_tab1.
Qed.

Lemma has_shape_at_row_set k n m a v :
  has_shape n m a -> length v = m -> has_shape n m (at_row_set k a v).
Proof.
  intros Ha Hv. rewrite (tab_cell n m a Ha).
  rewrite (list_tab1 (Inhabited0 := populate zero) v), Hv, at_row_set_tab.
  apply has_shape_tab.
Qed.

Lemma has_shape_at_col_set k n m a v :
  has_shape n m a -> length v = n -> has_shape n m (at_col_set k a v).
Proof.
  intros Ha Hv. rewrite (tab_cell n m a Ha).
  rewrite (list_tab1 (Inhabited0 := populate zero) v), Hv, at_col_set_tab.
  apply has_shape_tab.
Qed.
End Arithmetic.

Create HintDb shape.
#[global] Hint Resolve
  has_shape_tab has_shape_arr_map has_shape_arr_zip
  has_shape_d_dx has_shape_d_dy has_shape_d2_dx2 has_shape_d2_dy2
  has_shape_laplacian has_shape_at_row_set has_shape_at_col_set
  length_row length_col : shape.

Ltac shape :=
  unfold arr_add, arr_sub, arr_mul, scal_mul, arr_div_scal;
  eauto 20 with shape lia.

(** ** The predictor *)

Section Predictor.
Context {R : Type} `{!Scalar R}.
Variable g : Globals R.
Variables n m : nat.
Variables u v : array R.
Hypothesis Hu : has_shape n m u.
Hypothesis Hv : has_shape n m v.

Lemma has_shape_u_intermediate : has_shape n m (u_intermediate g u v).
Proof. unfold u_intermediate. shape. Qed.

Lemma has_shape_v_intermediate : has_shape n m (v_intermediate g u v).
Proof. unfold v_intermediate. shape. Qed.

Lemma cell_u_intermediate i j :
  i < n -> j < m ->
  cell (u_intermediate g u v) i j =
  add (sub (cell u i j)
           (mul (dt g)
              (add (mul (cell u i j) (cell (d_dx g u) i j))
                   (mul (cell v i j) (cell (d_dy g u) i j)))))
      (mul (mul (dt g) (VISCOSITY g)) (cell (laplacian g u) i j)).
Proof.
  intros Hi Hj.
  unfold u_intermediate, arr_add, arr_sub, arr_mul, scal_mul.
  repeat first
    [ rewrite (cell_arr_zip _ n m) by shape
    | rewrite (cell_arr_map _ n m) by shape ].
  done.
Qed.

Lemma cell_v_intermediate i j :
  i < n -> j < m ->
  cell (v_intermediate g u v) i j =
  add (sub (cell v i j)
           (mul (dt g)
              (add (mul (cell u i j) (cell (d_dx g v) i j))
                   (mul (cell v i j) (cell (d_dy g v) i j)))))
      (mul (mul (dt g) (VISCOSITY g)) (cell (laplacian g v) i j)).
Proof.
  intros Hi Hj.
  unfold v_intermediate, arr_add, arr_sub, arr_mul, scal_mul.
  repeat first
    [ rewrite (cell_arr_zip _ n m) by shape
    | rewrite (cell_arr_map _ n m) by shape ].
  done.
Qed.
End Predictor.

(** C7. For velocity fields [u] and [v] of one shape the predictor returns
    fields of that shape with, in every cell,
    [u* = u - dt (u d_dx(u) + v d_dy(u)) + dt nu laplacian(u)] and
    [v* = v - dt (u d_dx(v) + v d_dy(v)) + dt nu laplacian(v)], every
    product and sum taken on the elements of that cell. *)
Theorem predictor_step_correct {R : Type} `{!Scalar R}
    (g : Globals R) (n m : nat) (u v : array R) :
  has_shape n m u -> has_shape n m v ->
  has_shape n m (u_intermediate g u v) /\
  has_shape n m (v_intermediate g u v) /\
  forall i j, i < n -> j < m ->
    cell (u_intermediate g u v) i j =
      add (sub (cell u i j)
               (mul (dt g)
                  (add (mul (cell u i j) (cell (d_dx g u) i j))
                       (mul (cell v i j) (cell (d_dy g u) i j)))))
          (mul (mul (dt g) (VISCOSITY g)) (cell (laplacian g u) i j)) /\
    cell (v_intermediate g u v) i j =
      add (sub (cell v i j)
               (mul (dt g)
                  (add (mul (cell u i j) (cell (d_dx g v) i j))
                       (mul (cell v i j) (cell (d_dy g v) i j)))))
          (mul (mul (dt g) (VISCOSITY g)) (cell (laplacian g v) i j)).
Proof.
  intros Hu Hv. split; [|split].
  - by apply has_shape_u_intermediate.
  - by apply has_shape_v_intermediate.
  - intros i j Hi Hj. split.
    + by apply (cell_u_intermediate g n m).
    + by apply (cell_v_intermediate g n m).
Qed.

(** ** The integer indices of the program

    On a grid of at least two rows and columns the indices [0], [1], [-1]
    and [-2] are all in range. *)

Lemma read_index_0 len : read_index len 0 = 0.
Proof. unfold read_index, py_index. simpl. lia. Qed.
Lemma read_index_1 len : 2 <= len -> read_index len 1 = 1.
Proof. unfold read_index, py_index. simpl. lia. Qed.
Lemma read_index_m1 len : read_index len (-1) = len - 1.
Proof. unfold read_index, py_index. simpl. lia. Qed.
Lemma read_index_m2 len : 2 <= len -> read_index len (-2) = len - 2.
Proof. unfold read_index, py_index. simpl. lia. Qed.

Lemma write_index_0 len i : 0 < len -> write_index len 0 = Some i <-> i = 0.
Proof.
  intros Hlen. rewrite write_index_Some. unfold py_index. simpl. lia.
Qed.
Lemma write_index_m1 len i :
  0 < len -> write_index len (-1) = Some i <-> i + 1 = len.
Proof.
  intros Hlen. rewrite write_index_Some. unfold py_index. simpl. lia.
Qed.

Section Edges.
Context {R : Type} `{!Scalar R}.
Implicit Types (F : nat -> nat -> R) (V : nat -> R).

Lemma at_row_set_first n m F V :
  0 < n ->
  at_row_set 0 (tab n m F) (tab1 m V) =
  tab n m (fun i j => if decide (i = 0) then V j else F i j).
Proof.
  intros Hn. rewrite at_row_set_tab. apply tab_ext. intros i j _ _.
  pose proof (write_index_0 n i Hn). repeat case_decide; done || tauto.
Qed.

Lemma at_row_set_last n m F V :
  0 < n ->
  at_row_set (-1) (tab n m F) (tab1 m V) =
  tab n m (fun i j => if decide (i + 1 = n) then V j else F i j).
Proof.
  intros Hn. rewrite at_row_set_tab. apply tab_ext. intros i j _ _.
  pose proof (write_index_m1 n i Hn). repeat case_decide; done || tauto.
Qed.

Lemma at_col_set_first n m F V :
  0 < m ->
  at_col_set 0 (tab n m F) (tab1 n V) =
  tab n m (fun i j => if decide (j = 0) then V i else F i j).
Proof.
  intros Hm. rewrite at_col_set_tab. apply tab_ext. intros i j _ _.
  pose proof (write_index_0 m j Hm). repeat case_decide; done || tauto.
Qed.

Lemma at_col_set_last n m F V :
  0 < m ->
  at_col_set (-1) (tab n m F) (tab1 n V) =
  tab n m (fun i j => if decide (j + 1 = m) then V i else F i j).
Proof.
  intros Hm. rewrite at_col_set_tab. apply tab_ext. intros i j _ _.
  pose proof (write_index_m1 m j Hm). repeat case_decide; done || tauto.
Qed.

Lemma row_first n m F : 0 < n -> row 0 (tab n m F) = tab1 m (F 0).
Proof. intros. by rewrite row_tab, read_index_0. Qed.
Lemma row_second n m F : 2 <= n -> row 1 (tab n m F) = tab1 m (F 1).
Proof. intros. by rewrite row_tab, read_index_1 by lia. Qed.
Lemma row_last n m F : 0 < n -> row (-1) (tab n m F) = tab1 m (F (n - 1)).
Proof. intros. by rewrite row_tab, read_index_m1. Qed.

Lemma col_first n m F :
  0 < m -> col 0 (tab n m F) = tab1 n (fun i => F i 0).
Proof. intros. by rewrite col_tab, read_index_0. Qed.
Lemma col_second n m F :
  2 <= m -> col 1 (tab n m F) = tab1 n (fun i => F i 1).
Proof. intros. by rewrite col_tab, read_index_1 by lia. Qed.
Lemma col_last n m F :
  0 < m -> col (-1) (tab n m F) = tab1 n (fun i => F i (m - 1)).
Proof. intros. by rewrite col_tab, read_index_m1. Qed.
Lemma col_before_last n m F :
  2 <= m -> col (-2) (tab n m F) = tab1 n (fun i => F i (m - 2)).
Proof. intros. by rewrite col_tab, read_index_m2 by lia. Qed.
End Edges.

Create Rewrite HintDb edges.
#[global] Hint Rewrite
  @at_row_set_first @at_row_set_last @at_col_set_first @at_col_set_last
  @row_first @row_second @row_last
  @col_first @col_second @col_last @col_before_last using lia : edges.

(** ** The pressure solver *)

Section Pressure.
Context {R : Type} `{!Scalar R}.
Variable g : Globals R.
Implicit Types (P Q : nat -> nat -> R) (u v p rhs : array R).

Lemma jacobi_sweep_tab n m Q P :
  2 <= n -> 2 <= m ->
  jacobi_sweep g (tab n m Q) (tab n m P) =
  let P1 i j :=
    if interior n m i j
    then mul quarter
           (sub (add (add (add (P i (j + 1)) (P i (j - 1))) (P (i + 1) j))
                     (P (i - 1) j))
                (mul (pow (ELEMENT_LENGTH g) 2) (Q i j)))
    else zero in
  let P2 i j := if decide (j + 1 = m) then P1 i (m - 2) else P1 i j in
  let P3 i j := if decide (i = 0) then P2 1 j else P2 i j in
  let P4 i j := if decide (j = 0) then P3 i 1 else P3 i j in
  let P5 i j := if decide (i + 1 = n) then P4 (n - 1) j else P4 i j in
  tab n m P5.
Proof.
  intros Hn Hm. unfold jacobi_sweep, arr_add, arr_sub, scal_mul.
  autorewrite with tab. cbv zeta.
  match goal with
  | |- context [at_col_set (-1) (tab n m ?F) _] =>
      rewrite (tab_ext n m F (fun i j =>
        if interior n m i j
        then mul quarter
               (sub (add (add (add (P i (j + 1)) (P i (j - 1))) (P (i + 1) j))
                         (P (i - 1) j))
                    (mul (pow (ELEMENT_LENGTH g) 2) (Q i j)))
        else zero))
  end.
  - autorewrite with edges. reflexivity.
  - intros i j _ _. unfold interior. case_bool_decide; [cells|done].
Qed.
End Pressure.

Section PressureCells.
Context {R : Type} `{!Scalar R}.
Variable g : Globals R.
Variables n m : nat.
Variables rhs p_prev : array R.
Hypothesis Hn : 2 <= n.
Hypothesis Hm : 2 <= m.
Hypothesis Hrhs : has_shape n m rhs.
Hypothesis Hp : has_shape n m p_prev.

Lemma has_shape_jacobi_sweep : has_shape n m (jacobi_sweep g rhs p_prev).
Proof.
  rewrite (tab_cell n m rhs Hrhs), (tab_cell n m p_prev Hp).
  rewrite jacobi_sweep_tab by done. apply has_shape_tab.
Qed.

(** The interior of a sweep is the Jacobi update of the array it read. *)
Lemma cell_jacobi_sweep_interior i j :
  interior n m i j = true ->
  cell (jacobi_sweep g rhs p_prev) i j =
  mul quarter
    (sub (add (add (add (cell p_prev i (j + 1)) (cell p_prev i (j - 1)))
                   (cell p_prev (i + 1) j))
              (cell p_prev (i - 1) j))
         (mul (pow (ELEMENT_LENGTH g) 2) (cell rhs i j))).
Proof.
  intros Hin. destruct (interior_lt _ _ _ _ Hin) as [Hi Hj].
  rewrite (tab_cell n m rhs Hrhs) at 1.
  rewrite (tab_cell n m p_prev Hp) at 1.
  rewrite jacobi_sweep_tab, cell_tab by done. cbv zeta.
  pose proof Hin as Hin'. unfold interior in Hin'.
  apply bool_decide_eq_true in Hin'.
  repeat case_decide; try (exfalso; lia). by rewrite Hin.
Qed.

(** The last row of a sweep is the row of zeros it started from. *)
Lemma cell_jacobi_sweep_last_row j :
  j < m -> cell (jacobi_sweep g rhs p_prev) (n - 1) j = zero.
Proof.
  intros Hj.
  rewrite (tab_cell n m rhs Hrhs), (tab_cell n m p_prev Hp).
  rewrite jacobi_sweep_tab, cell_tab by (done || lia). cbv zeta.
  assert (forall j', interior n m (n - 1) j' = false) as Hout.
  { intros j'. unfold interior. apply bool_decide_eq_false. lia. }
  repeat case_decide; try (exfalso; lia); by rewrite Hout.
Qed.

(** The three edges that the boundary pass does copy. *)
Lemma cell_jacobi_sweep_first_col i :
  i < n ->
  cell (jacobi_sweep g rhs p_prev) i 0 = cell (jacobi_sweep g rhs p_prev) i 1.
Proof.
  intros Hi.
  rewrite (tab_cell n m rhs Hrhs), (tab_cell n m p_prev Hp).
  rewrite jacobi_sweep_tab, !cell_tab by (done || lia). cbv zeta.
  repeat case_decide; try (exfalso; lia); try done.
  all: unfold interior; repeat case_bool_decide; done || (exfalso; lia).
Qed.

Lemma cell_jacobi_sweep_last_col i :
  i < n ->
  cell (jacobi_sweep g rhs p_prev) i (m - 1) =
  cell (jacobi_sweep g rhs p_prev) i (m - 2).
Proof.
  intros Hi.
  rewrite (tab_cell n m rhs Hrhs), (tab_cell n m p_prev Hp).
  rewrite jacobi_sweep_tab, !cell_tab by (done || lia). cbv zeta.
  repeat case_decide; try (exfalso; lia); try done.
  all: unfold interior; repeat case_bool_decide; done || (exfalso; lia).
Qed.

Lemma cell_jacobi_sweep_first_row j :
  j < m ->
  cell (jacobi_sweep g rhs p_prev) 0 j = cell (jacobi_sweep g rhs p_prev) 1 j.
Proof.
  intros Hj.
  rewrite (tab_cell n m rhs Hrhs), (tab_cell n m p_prev Hp).
  rewrite jacobi_sweep_tab, !cell_tab by (done || lia). cbv zeta.
  repeat case_decide; try (exfalso; lia); try done.
  all: unfold interior; repeat case_bool_decide; done || (exfalso; lia).
Qed.
End PressureCells.

Section PressureLoop.
Context {R : Type} `{!Scalar R}.
Variable g : Globals R.
Implicit Types (u v p p_prev rhs : array R).

Lemma jacobi_loop_p_prev k rhs l :
  loc_p_prev (Nat.iter k (jacobi_body g rhs) l) = loc_p_prev l.
Proof. induction k as [|k IH]; [done|]. simpl. exact IH. Qed.

(** However many times the body runs, [p_next] ends as one sweep of the
    [p_prev] that was passed in. *)
Lemma jacobi_loop k rhs p_prev :
  Nat.iter (S k) (jacobi_body g rhs)
    {| loc_p_prev := p_prev; loc_p_next := None |} =
  {| loc_p_prev := p_prev; loc_p_next := Some (jacobi_sweep g rhs p_prev) |}.
Proof. simpl. unfold jacobi_body at 1. by rewrite jacobi_loop_p_prev. Qed.

Lemma p_update_total u v p_prev :
  is_zero (dt g) = false -> (0 < JACOBI_ITERATIONS g)%Z ->
  p_update g u v p_prev = Ok (jacobi_sweep g (rhs_of g u v) p_prev).
Proof.
  intros Hdt HK. unfold p_update, float_div. rewrite Hdt. simpl.
  destruct (Z.to_nat (JACOBI_ITERATIONS g)) as [|k] eqn:E; [lia|].
  by rewrite jacobi_loop.
Qed.

Lemma p_update_unbound u v p_prev :
  is_zero (dt g) = false -> (JACOBI_ITERATIONS g <= 0)%Z ->
  p_update g u v p_prev = Raise UnboundLocalError.
Proof.
  intros Hdt HK. unfold p_update, float_div. rewrite Hdt. simpl.
  by replace (Z.to_nat (JACOBI_ITERATIONS g)) with 0 by lia.
Qed.

Lemma p_update_zero_division u v p_prev :
  is_zero (dt g) = true ->
  p_update g u v p_prev = Raise ZeroDivisionError.
Proof. intros Hdt. unfold p_update, float_div. by rewrite Hdt. Qed.

Lemma p_update_Ok u v p_prev p :
  p_update g u v p_prev = Ok p ->
  is_zero (dt g) = false /\ (0 < JACOBI_ITERATIONS g)%Z /\
  p = jacobi_sweep g (rhs_of g u v) p_prev.
Proof.
  intros E. destruct (is_zero (dt g)) eqn:Hdt.
  { by rewrite p_update_zero_division in E. }
  destruct (Z_lt_le_dec 0 (JACOBI_ITERATIONS g)) as [HK|HK].
  - rewrite p_update_total in E by done. by inversion E.
  - by rewrite p_update_unbound in E.
Qed.

Lemma has_shape_rhs_of n m u v :
  has_shape n m u -> has_shape n m v -> has_shape n m (rhs_of g u v).
Proof. intros Hu Hv. unfold rhs_of. shape. Qed.
End PressureLoop.

Lemma has_shape_p_update {R : Type} `{!Scalar R}
    (g : Globals R) (N : nat) (u v p_prev p : array R) :
  2 <= N ->
  has_shape N N u -> has_shape N N v -> has_shape N N p_prev ->
  p_update g u v p_prev = Ok p -> has_shape N N p.
Proof.
  intros HN Hu Hv Hp E. apply p_update_Ok in E as (_ & _ & ->).
  apply has_shape_jacobi_sweep; try done. by apply has_shape_rhs_of.
Qed.

(** C8. On an [N] by [N] grid, [N >= 2], whatever the velocities, the
    previous pressure and the iteration count, a pressure field that
    [p_update] returns is [N] by [N] and its last row [i = N-1] is zero in
    every column. *)
Theorem pressure_last_row_zero {R : Type} `{!Scalar R}
    (g : Globals R) (N : nat) (u v p_prev p : array R) :
  2 <= N ->
  has_shape N N u -> has_shape N N v -> has_shape N N p_prev ->
  p_update g u v p_prev = Ok p ->
  has_shape N N p /\ forall j, j < N -> cell p (N - 1) j = zero.
Proof.
  intros HN Hu Hv Hp E. split.
  - by apply (has_shape_p_update g N u v p_prev).
  - apply p_update_Ok in E as (_ & _ & ->).
    pose proof (has_shape_rhs_of g N N u v Hu Hv) as Hrhs.
    intros j Hj. by apply (cell_jacobi_sweep_last_row g N N).
Qed.

(** ** Setting the edges of the velocity *)

Section Dirichlet.
Context {R : Type} `{!Scalar R}.
Variable N : nat.
Hypothesis HN : 2 <= N.
Implicit Types (X U : nat -> nat -> R).

(** The four assignments with each edge taken from the same edge. *)
Lemma edges_tab X U :
  at_row_set (-1)
    (at_col_set (-1)
       (at_col_set 0
          (at_row_set 0 (tab N N X) (cast <$> row 0 (tab N N U)))
          (cast <$> col 0 (tab N N U)))
       (cast <$> col (-1) (tab N N U)))
    (cast <$> row (-1) (tab N N U)) =
  tab N N (fun i j => if boundary N N i j then cast (U i j) else X i j).
Proof.
  autorewrite with edges. rewrite !fmap_tab1. autorewrite with edges.
  apply tab_ext. intros i j Hi Hj.
  unfold boundary.
  repeat case_decide; case_bool_decide; try (exfalso; lia); try done; cells.
Qed.

(** The four assignments as [iterator] makes them on [u_i]: the last row
    is taken from the last column. *)
Lemma edges_transposed_tab X U :
  at_row_set (-1)
    (at_col_set (-1)
       (at_col_set 0
          (at_row_set 0 (tab N N X) (cast <$> row 0 (tab N N U)))
          (cast <$> col 0 (tab N N U)))
       (cast <$> col (-1) (tab N N U)))
    (cast <$> col (-1) (tab N N U)) =
  tab N N (fun i j =>
    if decide (i + 1 = N) then cast (U j (N - 1))
    else if boundary N N i j then cast (U i j) else X i j).
Proof.
  autorewrite with edges. rewrite !fmap_tab1. autorewrite with edges.
  apply tab_ext. intros i j Hi Hj.
  unfold boundary.
  repeat case_decide; try case_bool_decide; try (exfalso; lia); try done;
    cells.
Qed.
End Dirichlet.

(** ** The transition *)

Section Transition.
Context {R : Type} `{!Scalar R}.
Variable g : Globals R.
Variable N : nat.
Variables u_init v_init : array R.
Hypothesis HN : 2 <= N.
Hypothesis Hu0 : has_shape N N u_init.
Hypothesis Hv0 : has_shape N N v_init.

Lemma intermediate_tab u_prev v_prev :
  has_shape N N u_prev -> has_shape N N v_prev ->
  intermediate g u_init v_init u_prev v_prev =
  (tab N N (fun i j =>
     if decide (i + 1 = N) then cast (cell u_init j (N - 1))
     else if boundary N N i j then cast (cell u_init i j)
     else cell (u_intermediate g u_prev v_prev) i j),
   tab N N (fun i j =>
     if boundary N N i j then cast (cell v_init i j)
     else cell (v_intermediate g u_prev v_prev) i j)).
Proof.
  intros Hu Hv. unfold intermediate. cbv zeta.
  rewrite (tab_cell N N _ (has_shape_u_intermediate g N N _ _ Hu Hv)).
  rewrite (tab_cell N N _ (has_shape_v_intermediate g N N _ _ Hu Hv)).
  rewrite (tab_cell N N u_init Hu0) at 1 2 3 4.
  rewrite (tab_cell N N v_init Hv0) at 1 2 3 4.
  rewrite edges_tab, edges_transposed_tab by done.
  f_equal; apply tab_ext; intros i j Hi Hj; by rewrite cell_tab.
Qed.

Lemma has_shape_intermediate u_prev v_prev :
  has_shape N N u_prev -> has_shape N N v_prev ->
  has_shape N N (intermediate g u_init v_init u_prev v_prev).1 /\
  has_shape N N (intermediate g u_init v_init u_prev v_prev).2.
Proof.
  intros Hu Hv. rewrite intermediate_tab by done. simpl.
  split; apply has_shape_tab.
Qed.

(** What a transition that returns has computed. *)
Lemma iterator_Ok s s' :
  state_shape N s ->
  iterator g u_init v_init s = Ok s' ->
  exists u_i v_i c,
    intermediate g u_init v_init (st_u s) (st_v s) = (u_i, v_i) /\
    float_div (dt g) (DENSITY g) = Ok c /\
    p_update g u_i v_i (st_p s) = Ok (st_p s') /\
    st_u s' = tab N N (fun i j =>
      if boundary N N i j then cast (cell u_init i j)
      else cell (arr_sub u_i (scal_mul c (d_dx g (st_p s)))) i j) /\
    st_v s' = tab N N (fun i j =>
      if boundary N N i j then cast (cell v_init i j)
      else cell (arr_sub v_i (scal_mul c (d_dy g (st_p s)))) i j).
Proof.
  intros (Hu & Hv & Hp) E. unfold iterator in E.
  destruct (has_shape_intermediate (st_u s) (st_v s) Hu Hv) as [Hui Hvi].
  destruct (intermediate g u_init v_init (st_u s) (st_v s)) as [u_i v_i].
  simpl in Hui, Hvi.
  destruct (p_update g u_i v_i (st_p s)) as [p_next|] eqn:Ep; [|done].
  unfold u_update, v_update in E. simpl in E.
  destruct (float_div (dt g) (DENSITY g)) as [c|] eqn:Ec; [|done].
  simpl in E. unfold debug_nans in E. simpl in E.
  destruct (_ || _); [done|]. inversion E; subst s'; clear E. simpl.
  exists u_i, v_i, c. split; [done|]. split; [done|]. split; [done|].
  assert (has_shape N N (arr_sub u_i (scal_mul c (d_dx g (st_p s))))) as Hun
    by shape.
  assert (has_shape N N (arr_sub v_i (scal_mul c (d_dy g (st_p s))))) as Hvn
    by shape.
  rewrite (tab_cell N N _ Hun) at 1. rewrite (tab_cell N N _ Hvn) at 1.
  rewrite (tab_cell N N u_init Hu0) at 1 2 3 4.
  rewrite (tab_cell N N v_init Hv0) at 1 2 3 4.
  by rewrite !edges_tab by done.
Qed.

Lemma iterator_shape s s' :
  state_shape N s -> iterator g u_init v_init s = Ok s' -> state_shape N s'.
Proof.
  intros Hs E. pose proof Hs as (Hu & Hv & Hp).
  destruct (iterator_Ok s s' Hs E) as (u_i & v_i & c & Ei & _ & Ep & Eu & Ev).
  destruct (has_shape_intermediate (st_u s) (st_v s) Hu Hv) as [Hui Hvi].
  rewrite Ei in Hui, Hvi. simpl in Hui, Hvi.
  split; [|split].
  - rewrite Eu. apply has_shape_tab.
  - rewrite Ev. apply has_shape_tab.
  - by apply (has_shape_p_update g N u_i v_i (st_p s)).
Qed.
End Transition.

(** ** The loop over the timesteps *)

Section Driver.
Context {R : Type} `{!Scalar R}.
Variable g : Globals R.
Variable N : nat.
Variables u_init v_init : array R.
Hypothesis HN : 2 <= N.
Hypothesis Hu0 : has_shape N N u_init.
Hypothesis Hv0 : has_shape N N v_init.

Lemma iterator_edges_fixed s s' :
  state_shape N s -> iterator g u_init v_init s = Ok s' -> edges_fixed N u_init v_init s'.
Proof.
  intros Hs E.
  destruct (iterator_Ok g N u_init v_init HN Hu0 Hv0 s s' Hs E)
    as (u_i & v_i & c & _ & _ & _ & Eu & Ev).
  intros i j Hb. destruct (boundary_lt _ _ _ _ Hb) as [Hi Hj].
  rewrite Eu, Ev, !cell_tab, Hb by done. done.
Qed.

Lemma timestep_loop_shape steps s s' :
  state_shape N s ->
  timestep_loop g u_init v_init steps s = Ok s' -> state_shape N s'.
Proof.
  revert s. induction steps as [|k IH]; intros s Hs E; simpl in E.
  - by inversion E; subst.
  - destruct (iterator g u_init v_init s) as [s1|] eqn:E1; [|done].
    simpl in E. apply (IH s1); [|done].
    by apply (iterator_shape g N u_init v_init HN Hu0 Hv0 s).
Qed.

Lemma timestep_loop_edges_fixed steps s s' :
  1 <= steps -> state_shape N s ->
  timestep_loop g u_init v_init steps s = Ok s' -> edges_fixed N u_init v_init s'.
Proof.
  revert s. induction steps as [|k IH]; intros s Hk Hs E; [lia|].
  simpl in E.
  destruct (iterator g u_init v_init s) as [s1|] eqn:E1; [|done].
  simpl in E. destruct k as [|k].
  - simpl in E. inversion E; subst s'. by apply (iterator_edges_fixed s).
  - apply (IH s1); [lia| |done].
    by apply (iterator_shape g N u_init v_init HN Hu0 Hv0 s).
Qed.
End Driver.

(** With an iteration count that is not positive, the first transition
    fails at [return p_next]. *)
Lemma run_unbound_p_next {R : Type} `{!Scalar R}
    (g : Globals R) (u_init v_init p_init : array R) :
  (0 < TIMESTEPS g)%Z -> (JACOBI_ITERATIONS g <= 0)%Z ->
  is_zero (dt g) = false ->
  run g u_init v_init p_init = Raise UnboundLocalError.
Proof.
  intros HT HK Hdt. unfold run.
  destruct (Z.to_nat (TIMESTEPS g)) as [|k] eqn:E; [lia|].
  simpl. unfold iterator.
  destruct (intermediate g u_init v_init _ _) as [u_i v_i].
  by rewrite p_update_unbound.
Qed.

(** C5, as the code has it. On an [N] by [N] grid, [N >= 2], the state
    that the loop holds after [steps >= 1] transitions from the initial
    fields has, in every cell of the four edges [i = 0], [i = N-1],
    [j = 0], [j = N-1], the values of [u_init] and [v_init] converted to
    the element type of the arrays of the solver: the same scalars as
    [u_init] and [v_init] hold where the conversion changes nothing, and
    their roundings elsewhere. *)
Theorem boundary_invariant {R : Type} `{!Scalar R}
    (g : Globals R) (N : nat) (u_init v_init p_init : array R)
    (steps : nat) (s : State R) :
  2 <= N ->
  has_shape N N u_init -> has_shape N N v_init -> has_shape N N p_init ->
  1 <= steps ->
  timestep_loop g u_init v_init steps
    {| st_u := u_init; st_v := v_init; st_p := p_init |} = Ok s ->
  forall i j, boundary N N i j = true ->
    cell (st_u s) i j = cast (cell u_init i j) /\
    cell (st_v s) i j = cast (cell v_init i j).
Proof.
  intros HN Hu0 Hv0 Hp0 Hsteps E.
  by apply (timestep_loop_edges_fixed g N u_init v_init HN Hu0 Hv0 steps
              {| st_u := u_init; st_v := v_init; st_p := p_init |}).
Qed.

(** C10. With [TIMESTEPS = 0] the run ends in the initial fields
    [(u_init, v_init, p_init)], unchanged. *)
Theorem run_zero_steps {R : Type} `{!Scalar R}
    (g : Globals R) (u_init v_init p_init : array R) :
  TIMESTEPS g = 0%Z ->
  run g u_init v_init p_init =
  Ok {| st_u := u_init; st_v := v_init; st_p := p_init |}.
Proof. intros E. unfold run. by rewrite E. Qed.

(** C9, as the code has it. Nothing checks the configuration. When
    [TIMESTEPS] is zero or negative the loop over the timesteps makes no
    pass: it raises nothing and leaves the state at the initial fields,
    whatever the other constants are. *)
Theorem run_without_timesteps {R : Type} `{!Scalar R}
    (g : Globals R) (u_init v_init p_init : array R) :
  (TIMESTEPS g <= 0)%Z ->
  run g u_init v_init p_init =
  Ok {| st_u := u_init; st_v := v_init; st_p := p_init |}.
Proof.
  intros E. unfold run.
  by replace (Z.to_nat (TIMESTEPS g)) with 0 by lia.
Qed.

(** * The model on the small grid *)

Ltac shape3 := split; [reflexivity | repeat constructor].

Lemma grid3_constants k t :
  constants 3 (dt (grid3 k t)) t (VISCOSITY (grid3 k t)) 1%float k =
  Ok (grid3 k t).
Proof. reflexivity. Qed.

(** Two binary64 numbers that the comparison tells apart are different. *)
Ltac float_neq :=
  let E := fresh "E" in
  intros E;
  match type of E with
  | _ = ?y => apply (f_equal (fun x => PrimFloat.eqb x y)) in E
  end;
  vm_compute in E; discriminate.

(** C1, on the code. With [JACOBI_ITERATIONS = 2], zero velocities and a
    pressure of ones, [p_update] returns one sweep of [p_prev]: the same
    field as with [JACOBI_ITERATIONS = 1], with 1 in the interior. Two
    sweeps, the second reading the first, give 0.75 there. *)
Theorem jacobi_iterations_not_chained :
  p_update (grid3 2 1) zeros3 zeros3 ones3 =
    Ok [[1; 1; 1]; [1; 1; 1]; [0; 0; 0]]%float /\
  p_update (grid3 2 1) zeros3 zeros3 ones3 =
    p_update (grid3 1 1) zeros3 zeros3 ones3 /\
  p_update (grid3 2 1) zeros3 zeros3 ones3 =
    Ok (jacobi_sweep (grid3 2 1) (rhs_of (grid3 2 1) zeros3 zeros3) ones3) /\
  Nat.iter 2 (jacobi_sweep (grid3 2 1) (rhs_of (grid3 2 1) zeros3 zeros3))
    ones3 =
    [[0.75; 0.75; 0.75]; [0.75; 0.75; 0.75]; [0; 0; 0]]%float.
Proof. repeat split; vm_compute; reflexivity. Qed.

(** C2, on the code. From zero velocities and the pressure [bump3] the
    solver returns a pressure whose gradient is zero in the interior cell,
    so a corrector on the solved pressure leaves [u] at zero; the
    transition returns [u = -2e-05] in that cell, which is the corrector
    on the pressure that came in. *)
Theorem corrector_uses_previous_pressure :
  let g := grid3 2 1 in
  let solved := [[0.5; 0.5; 0.5]; [0.5; 0.5; 0.5]; [0; 0; 0]]%float in
  let lagged :=
    [[0; 0; 0]; [0; -0x1.4f8b588e368f1p-16; 0]; [0; 0; 0]]%float in
  intermediate g zeros3 zeros3 zeros3 zeros3 = (zeros3, zeros3) /\
  p_update g zeros3 zeros3 bump3 = Ok solved /\
  u_update g zeros3 solved = Ok zeros3 /\
  u_update g zeros3 bump3 = Ok lagged /\
  iterator g zeros3 zeros3
    {| st_u := zeros3; st_v := zeros3; st_p := bump3 |} =
    Ok {| st_u := lagged; st_v := zeros3; st_p := solved |} /\
  cell lagged 1 1 <> cell zeros3 1 1.
Proof.
  cbv zeta. repeat split; try (vm_compute; reflexivity). float_neq.
Qed.

(** C3, on the code. After the boundary pass of a sweep the last row of
    the pressure is not the row above it: from a pressure of ones the
    solver returns rows of 1 above a last row of 0. *)
Theorem neumann_last_row_not_copied :
  exists p,
    p_update (grid3 1 1) zeros3 zeros3 ones3 = Ok p /\
    p = [[1; 1; 1]; [1; 1; 1]; [0; 0; 0]]%float /\
    cell p 2 1 <> cell p 1 1.
Proof.
  exists [[1; 1; 1]; [1; 1; 1]; [0; 0; 0]]%float.
  repeat split; try (vm_compute; reflexivity). float_neq.
Qed.

(** C4, on the code. After the predictor the last row of [u_i] is set
    from the last column of [u_init]: for [u_init = count3] it becomes
    [3, 6, 9] and not the last row [7, 8, 9]. *)
Theorem intermediate_last_row_transposed :
  (intermediate (grid3 2 1) count3 count3 zeros3 zeros3).1 =
    [[1; 2; 3]; [4; 0; 6]; [3; 6; 9]]%float /\
  (intermediate (grid3 2 1) count3 count3 zeros3 zeros3).2 =
    [[1; 2; 3]; [4; 0; 6]; [7; 8; 9]]%float /\
  col (-1) count3 = [3; 6; 9]%float /\
  row (-1) count3 = [7; 8; 9]%float /\
  cell (intermediate (grid3 2 1) count3 count3 zeros3 zeros3).1 2 0 <>
    cell count3 2 0.
Proof. repeat split; try (vm_compute; reflexivity). float_neq. Qed.

(** C5 as stated fails. [u_init] and [v_init] hold 0.1 in every cell, the
    binary64 number 0x1.999999999999ap-4, and the arrays of the solver are
    binary32. After two transitions the edges of [u] and [v] hold
    0x1.99999ap-4, the binary32 number nearest to 0.1, and not the number
    that [u_init] and [v_init] hold. The derivatives of a constant field
    are zero, so the rounding of the arithmetic plays no part in it. *)
Theorem edges_are_converted :
  let init := {| st_u := tenths3; st_v := tenths3; st_p := zeros3 |} in
  let s := two_steps_binary32 in
  @timestep_loop float float32_scalar (grid3 2 2) tenths3 tenths3 2 init =
    Ok s /\
  boundary 3 3 0 1 = true /\
  @cell float float32_scalar tenths3 0 1 = 0x1.999999999999ap-4%float /\
  @cell float float32_scalar (st_u s) 0 1 = 0x1.99999ap-4%float /\
  @cell float float32_scalar (st_v s) 0 1 = 0x1.99999ap-4%float /\
  @cell float float32_scalar (st_u s) 0 1 <>
    @cell float float32_scalar tenths3 0 1 /\
  @cell float float32_scalar (st_v s) 0 1 <>
    @cell float float32_scalar tenths3 0 1.
Proof.
  cbv zeta. repeat split; try (vm_compute; reflexivity); float_neq.
Qed.

(** C9 as stated fails: with [TIMESTEPS = 0], which is not positive, and
    the other constants of the notebook on a grid of 32 points per axis,
    the notebook raises nothing: it draws the initial fields and ends in
    them. *)
Lemma configuration_not_rejected :
  let timesteps := 0%Z in
  let outcome :=
    logged_notebook 32 0x1.4f8b588e368f1p-17%float timesteps
      0x1.999999999999ap-4%float 1%float 500
      mesh_x mesh_y wave32 wave32 zeros32 in
  (timesteps <= 0)%Z /\
  outcome.2 = Done {| st_u := wave32; st_v := wave32; st_p := zeros32 |} /\
  forall e, outcome.2 <> Failed e.
Proof.
  cbv zeta. split; [lia|]. split; [vm_compute; reflexivity|].
  intros e. vm_compute. discriminate.
Qed.

(** The theorems above at work on the small grid. *)

Lemma boundary_invariant_witness :
  @timestep_loop float float32_scalar (grid3 2 2) tenths3 tenths3 2
    {| st_u := tenths3; st_v := tenths3; st_p := zeros3 |} =
    Ok two_steps_binary32 /\
  forall i j, boundary 3 3 i j = true ->
    @cell float float32_scalar (st_u two_steps_binary32) i j =
      to_binary32 (@cell float float32_scalar tenths3 i j) /\
    @cell float float32_scalar (st_v two_steps_binary32) i j =
      to_binary32 (@cell float float32_scalar tenths3 i j).
Proof.
  split; [vm_compute; reflexivity|].
  apply (@boundary_invariant float float32_scalar (grid3 2 2) 3
           tenths3 tenths3 zeros3 2 two_steps_binary32);
    [lia | shape3 | shape3 | shape3 | lia | vm_compute; reflexivity].
Defined.

Lemma pressure_last_row_zero_witness :
  has_shape 3 3 [[1; 1; 1]; [1; 1; 1]; [0; 0; 0]]%float /\
  forall j, j < 3 -> cell [[1; 1; 1]; [1; 1; 1]; [0; 0; 0]]%float (3 - 1) j = zero.
Proof.
  apply (pressure_last_row_zero (grid3 2 1) 3 zeros3 zeros3 ones3);
    [lia | shape3 | shape3 | shape3 | vm_compute; reflexivity].
Defined.

Lemma run_zero_steps_witness :
  run (grid3 2 0) count3 count3 ones3 =
  Ok {| st_u := count3; st_v := count3; st_p := ones3 |}.
Proof. apply (run_zero_steps (grid3 2 0)). reflexivity. Defined.

Lemma run_without_timesteps_witness :
  run (grid32 2 (-3)) wave32 wave32 zeros32 =
  Ok {| st_u := wave32; st_v := wave32; st_p := zeros32 |}.
Proof. apply (run_without_timesteps (grid32 2 (-3))). simpl. lia. Defined.

Lemma differential_operators_witness :
  let g := grid3 2 1 in
  let f := count3 in
  (has_shape 3 3 (d_dx g f) /\ has_shape 3 3 (d_dy g f) /\
   has_shape 3 3 (d2_dx2 g f) /\ has_shape 3 3 (d2_dy2 g f) /\
   has_shape 3 3 (laplacian g f)) /\
  (forall i j, boundary 3 3 i j = true ->
     cell (d_dx g f) i j = zero /\ cell (d_dy g f) i j = zero /\
     cell (d2_dx2 g f) i j = zero /\ cell (d2_dy2 g f) i j = zero /\
     cell (laplacian g f) i j = zero) /\
  (forall i j, interior 3 3 i j = true ->
     cell (d_dx g f) i j =
       div (sub (cell f i (j + 1)) (cell f i (j - 1)))
           (mul (of_int 2) (ELEMENT_LENGTH g)) /\
     cell (d_dy g f) i j =
       div (sub (cell f (i + 1) j) (cell f (i - 1) j))
           (mul (of_int 2) (ELEMENT_LENGTH g)) /\
     cell (d2_dx2 g f) i j =
       div (add (sub (cell f i (j + 1)) (mul (of_int 2) (cell f i j)))
                (cell f i (j - 1)))
           (pow (ELEMENT_LENGTH g) 2) /\
     cell (d2_dy2 g f) i j =
       div (add (sub (cell f (i + 1) j) (mul (of_int 2) (cell f i j)))
                (cell f (i - 1) j))
           (pow (ELEMENT_LENGTH g) 2)) /\
  laplacian g f = arr_add (d2_dx2 g f) (d2_dy2 g f) /\
  (forall i j, i < 3 -> j < 3 ->
     cell (laplacian g f) i j =
       add (cell (d2_dx2 g f) i j) (cell (d2_dy2 g f) i j)).
Proof.
  apply (differential_operators_correct (grid3 2 1) 3 3 count3);
    [shape3 | reflexivity].
Defined.

Lemma predictor_step_witness :
  let g := grid3 2 1 in
  let u := count3 in
  let v := ones3 in
  has_shape 3 3 (u_intermediate g u v) /\
  has_shape 3 3 (v_intermediate g u v) /\
  forall i j, i < 3 -> j < 3 ->
    cell (u_intermediate g u v) i j =
      add (sub (cell u i j)
               (mul (dt g)
                  (add (mul (cell u i j) (cell (d_dx g u) i j))
                       (mul (cell v i j) (cell (d_dy g u) i j)))))
          (mul (mul (dt g) (VISCOSITY g)) (cell (laplacian g u) i j)) /\
    cell (v_intermediate g u v) i j =
      add (sub (cell v i j)
               (mul (dt g)
                  (add (mul (cell u i j) (cell (d_dx g v) i j))
                       (mul (cell v i j) (cell (d_dy g v) i j)))))
          (mul (mul (dt g) (VISCOSITY g)) (cell (laplacian g v) i j)).
Proof.
  apply (predictor_step_correct (grid3 2 1) 3 3 count3 ones3); shape3.
Defined.

(** * Further properties of the solver *)

(** Two arrays of one shape with the same cells are equal. *)
Lemma array_ext {R : Type} `{!Scalar R} (n m : nat) (a b : array R) :
  has_shape n m a -> has_shape n m b ->
  (forall i j, i < n -> j < m -> cell a i j = cell b i j) -> a = b.
Proof.
  intros Ha Hb E. rewrite (tab_cell n m a Ha), (tab_cell n m b Hb).
  by apply tab_ext.
Qed.

(** ** The operators on grids without an interior, and what they read *)

(** X1. On a field with fewer than three rows or fewer than three columns
    (the empty field too) there is no interior cell: each of the four
    derivatives is the field of zeros of the same shape. *)
Theorem operators_without_interior {R : Type} `{!Scalar R}
    (g : Globals R) (n m : nat) (f : array R) :
  has_shape n m f -> n < 3 \/ m < 3 ->
  d_dx g f = zeros_like f /\ d_dy g f = zeros_like f /\
  d2_dx2 g f = zeros_like f /\ d2_dy2 g f = zeros_like f.
Proof.
  intros Hf Hsmall. rewrite (tab_cell n m f Hf).
  rewrite d_dx_tab, d_dy_tab, d2_dx2_tab, d2_dy2_tab, zeros_like_tab.
  assert (forall i j, interior n m i j = false) as Hout.
  { intros i j. unfold interior. apply bool_decide_eq_false. lia. }
  repeat split; apply tab_ext; intros i j _ _; by rewrite Hout.
Qed.

Lemma x_derivatives_ext {R : Type} `{!Scalar R}
    (g : Globals R) (n m : nat) (f f' : array R) :
  has_shape n m f -> has_shape n m f' ->
  (forall i j, 1 <= i -> i + 2 <= n -> j < m -> cell f i j = cell f' i j) ->
  d_dx g f = d_dx g f' /\ d2_dx2 g f = d2_dx2 g f'.
Proof.
  intros Hf Hf' E.
  rewrite (tab_cell n m f Hf), (tab_cell n m f' Hf'), !d_dx_tab, !d2_dx2_tab.
  split; apply tab_ext; intros i j _ _; unfold interior;
    case_bool_decide; try done; by rewrite !E by lia.
Qed.

Lemma y_derivatives_ext {R : Type} `{!Scalar R}
    (g : Globals R) (n m : nat) (f f' : array R) :
  has_shape n m f -> has_shape n m f' ->
  (forall i j, i < n -> 1 <= j -> j + 2 <= m -> cell f i j = cell f' i j) ->
  d_dy g f = d_dy g f' /\ d2_dy2 g f = d2_dy2 g f'.
Proof.
  intros Hf Hf' E.
  rewrite (tab_cell n m f Hf), (tab_cell n m f' Hf'), !d_dy_tab, !d2_dy2_tab.
  split; apply tab_ext; intros i j _ _; unfold interior;
    case_bool_decide; try done; by rewrite !E by lia.
Qed.

(** X2. The derivatives along x read the inner rows only: two fields of one
    shape that agree on the rows [1 <= i <= n-2] have the same [d_dx] and
    the same [d2_dx2], whatever their first and last rows hold. *)
Theorem x_derivatives_read_inner_rows {R : Type} `{!Scalar R}
    (g : Globals R) (n m : nat) (f f' : array R) :
  has_shape n m f -> has_shape n m f' ->
  (forall i j, 1 <= i -> i + 2 <= n -> j < m -> cell f i j = cell f' i j) ->
  d_dx g f = d_dx g f' /\ d2_dx2 g f = d2_dx2 g f'.
Proof. apply x_derivatives_ext. Qed.

(** X3. The derivatives along y read the inner columns only: two fields of
    one shape that agree on the columns [1 <= j <= m-2] have the same
    [d_dy] and the same [d2_dy2]. *)
Theorem y_derivatives_read_inner_columns {R : Type} `{!Scalar R}
    (g : Globals R) (n m : nat) (f f' : array R) :
  has_shape n m f -> has_shape n m f' ->
  (forall i j, i < n -> 1 <= j -> j + 2 <= m -> cell f i j = cell f' i j) ->
  d_dy g f = d_dy g f' /\ d2_dy2 g f = d2_dy2 g f'.
Proof. apply y_derivatives_ext. Qed.

(** X4. The Laplacian never reads the four corners: two fields of one shape
    that agree in every cell of an inner row or of an inner column have the
    same Laplacian. *)
Theorem laplacian_ignores_corners {R : Type} `{!Scalar R}
    (g : Globals R) (n m : nat) (f f' : array R) :
  has_shape n m f -> has_shape n m f' ->
  (forall i j, i < n -> j < m ->
     (1 <= i /\ i + 2 <= n) \/ (1 <= j /\ j + 2 <= m) ->
     cell f i j = cell f' i j) ->
  laplacian g f = laplacian g f'.
Proof.
  intros Hf Hf' E. unfold laplacian.
  destruct (x_derivatives_ext g n m f f' Hf Hf') as [_ ->].
  { intros i j ???. apply E; lia. }
  destruct (y_derivatives_ext g n m f f' Hf Hf') as [_ ->].
  { intros i j ???. apply E; lia. }
  done.
Qed.

(** ** The pressure solver: outcome, edges, interior, and what it reads *)

Lemma cell_rhs_of {R : Type} `{!Scalar R}
    (g : Globals R) (n m : nat) (u v : array R) (i j : nat) :
  has_shape n m u -> has_shape n m v -> i < n -> j < m ->
  cell (rhs_of g u v) i j =
  mul (div (DENSITY g) (dt g)) (add (cell (d_dx g u) i j) (cell (d_dy g v) i j)).
Proof.
  intros Hu Hv Hi Hj. unfold rhs_of, scal_mul, arr_add.
  rewrite (cell_arr_map _ n m) by shape.
  by rewrite (cell_arr_zip _ n m) by shape.
Qed.

Lemma p_update_closed_form {R : Type} `{!Scalar R}
    (g : Globals R) (u v p_prev : array R) :
  p_update g u v p_prev =
  if is_zero (dt g) then Raise ZeroDivisionError
  else if (JACOBI_ITERATIONS g <=? 0)%Z then Raise UnboundLocalError
  else Ok (jacobi_sweep g (rhs_of g u v) p_prev).
Proof.
  destruct (is_zero (dt g)) eqn:Hdt.
  - by apply p_update_zero_division.
  - destruct (Z.leb_spec (JACOBI_ITERATIONS g) 0).
    + by apply p_update_unbound.
    + by apply p_update_total.
Qed.

(** X5. What [p_update] does on [N] by [N] fields, [N >= 2], case by
    case: with [dt] zero it raises ZeroDivisionError, whatever the
    iteration count; otherwise with an iteration count that is not positive
    it raises UnboundLocalError; otherwise it returns one sweep of the
    pressure it was given. *)
Theorem p_update_outcome {R : Type} `{!Scalar R}
    (g : Globals R) (N : nat) (u v p_prev : array R) :
  2 <= N ->
  has_shape N N u -> has_shape N N v -> has_shape N N p_prev ->
  p_update g u v p_prev =
  if is_zero (dt g) then Raise ZeroDivisionError
  else if (JACOBI_ITERATIONS g <=? 0)%Z then Raise UnboundLocalError
  else Ok (jacobi_sweep g (rhs_of g u v) p_prev).
Proof. intros _ _ _ _. apply p_update_closed_form. Qed.

(** X6. On an [N] by [N] grid, [N >= 2], a pressure that [p_update]
    returns has its first column equal to the second, its last column equal
    to the one before, and its first row equal to the second. *)
Theorem pressure_three_edges_copied {R : Type} `{!Scalar R}
    (g : Globals R) (N : nat) (u v p_prev p : array R) :
  2 <= N ->
  has_shape N N u -> has_shape N N v -> has_shape N N p_prev ->
  p_update g u v p_prev = Ok p ->
  (forall i, i < N -> cell p i 0 = cell p i 1) /\
  (forall i, i < N -> cell p i (N - 1) = cell p i (N - 2)) /\
  (forall j, j < N -> cell p 0 j = cell p 1 j).
Proof.
  intros HN Hu Hv Hp E. apply p_update_Ok in E as (_ & _ & ->).
  pose proof (has_shape_rhs_of g N N u v Hu Hv) as Hrhs.
  split; [|split]; intros k Hk.
  - by apply (cell_jacobi_sweep_first_col g N N).
  - by apply (cell_jacobi_sweep_last_col g N N).
  - by apply (cell_jacobi_sweep_first_row g N N).
Qed.

(** X7. In an interior cell the pressure that [p_update] returns is the
    Jacobi update of the pressure it was given:
    [0.25 * (p[i,j+1] + p[i,j-1] + p[i+1,j] + p[i-1,j]
             - h**2 * (DENSITY / dt) * (d_dx(u)[i,j] + d_dy(v)[i,j]))],
    with the sums taken from left to right. *)
Theorem pressure_interior_update {R : Type} `{!Scalar R}
    (g : Globals R) (N : nat) (u v p_prev p : array R) (i j : nat) :
  2 <= N ->
  has_shape N N u -> has_shape N N v -> has_shape N N p_prev ->
  p_update g u v p_prev = Ok p ->
  interior N N i j = true ->
  cell p i j =
  mul quarter
    (sub (add (add (add (cell p_prev i (j + 1)) (cell p_prev i (j - 1)))
                   (cell p_prev (i + 1) j))
              (cell p_prev (i - 1) j))
         (mul (pow (ELEMENT_LENGTH g) 2)
              (mul (div (DENSITY g) (dt g))
                   (add (cell (d_dx g u) i j) (cell (d_dy g v) i j))))).
Proof.
  intros HN Hu Hv Hp E Hin. apply p_update_Ok in E as (_ & _ & ->).
  pose proof (has_shape_rhs_of g N N u v Hu Hv) as Hrhs.
  destruct (interior_lt _ _ _ _ Hin) as [Hi Hj].
  rewrite (cell_jacobi_sweep_interior g N N) by done.
  by rewrite (cell_rhs_of g N N).
Qed.

(** The interior that a sweep writes depends on the cells that the
    stencil reads. *)
Lemma jacobi_sweep_ext {R : Type} `{!Scalar R}
    (g : Globals R) (n m : nat) (rhs rhs' p p' : array R) :
  has_shape n m rhs -> has_shape n m rhs' ->
  has_shape n m p -> has_shape n m p' ->
  (forall i j, interior n m i j = true -> cell rhs i j = cell rhs' i j) ->
  (forall i j, i < n -> j < m ->
     (1 <= i /\ i + 2 <= n) \/ (1 <= j /\ j + 2 <= m) ->
     cell p i j = cell p' i j) ->
  jacobi_sweep g rhs p = jacobi_sweep g rhs' p'.
Proof.
  intros Hr Hr' Hp Hp' Er Ep. unfold jacobi_sweep. cbv zeta.
  match goal with
  | |- ?lhs = ?rhs =>
      match lhs with
      | context [at_col_set (-1) ?a _] =>
          match rhs with
          | context [at_col_set (-1) ?b _] => assert (a = b) as ->; [|done]
          end
      end
  end.
  rewrite (tab_cell n m rhs Hr), (tab_cell n m rhs' Hr').
  rewrite (tab_cell n m p Hp), (tab_cell n m p' Hp').
  unfold arr_add, arr_sub, scal_mul. autorewrite with tab.
  apply tab_ext. intros i j _ _. destruct (interior n m i j) eqn:Hin; [|done].
  pose proof Hin as Hin'. unfold interior in Hin'.
  apply bool_decide_eq_true in Hin'.
  rewrite !Ep by lia. rewrite Er; [done|].
  unfold interior. apply bool_decide_eq_true. lia.
Qed.

Lemma p_update_ext {R : Type} `{!Scalar R}
    (g : Globals R) (N : nat) (u u' v v' p p' : array R) :
  has_shape N N u -> has_shape N N u' ->
  has_shape N N v -> has_shape N N v' ->
  has_shape N N p -> has_shape N N p' ->
  (forall i j, 1 <= i -> i + 2 <= N -> j < N -> cell u i j = cell u' i j) ->
  (forall i j, i < N -> 1 <= j -> j + 2 <= N -> cell v i j = cell v' i j) ->
  (forall i j, i < N -> j < N ->
     (1 <= i /\ i + 2 <= N) \/ (1 <= j /\ j + 2 <= N) ->
     cell p i j = cell p' i j) ->
  p_update g u v p = p_update g u' v' p'.
Proof.
  intros Hu Hu' Hv Hv' Hp Hp' Eu Ev Ep. rewrite !p_update_closed_form.
  destruct (is_zero (dt g)); [done|].
  destruct (_ <=? _)%Z; [done|]. f_equal.
  apply (jacobi_sweep_ext g N N); try done; try by apply has_shape_rhs_of.
  intros i j Hin. destruct (interior_lt _ _ _ _ Hin) as [Hi Hj].
  rewrite !(cell_rhs_of g N N) by done.
  destruct (x_derivatives_ext g N N u u' Hu Hu' Eu) as [-> _].
  by destruct (y_derivatives_ext g N N v v' Hv Hv' Ev) as [-> _].
Qed.

(** X8. [p_update] reads the inner rows of [u], the inner columns of [v]
    and the pressure off its four corners: changing the first or last row
    of [u], the first or last column of [v], or a corner of [p_prev]
    changes nothing in what it returns or raises. *)
Theorem p_update_reads {R : Type} `{!Scalar R}
    (g : Globals R) (N : nat) (u u' v v' p p' : array R) :
  has_shape N N u -> has_shape N N u' ->
  has_shape N N v -> has_shape N N v' ->
  has_shape N N p -> has_shape N N p' ->
  (forall i j, 1 <= i -> i + 2 <= N -> j < N -> cell u i j = cell u' i j) ->
  (forall i j, i < N -> 1 <= j -> j + 2 <= N -> cell v i j = cell v' i j) ->
  (forall i j, i < N -> j < N ->
     (1 <= i /\ i + 2 <= N) \/ (1 <= j /\ j + 2 <= N) ->
     cell p i j = cell p' i j) ->
  p_update g u v p = p_update g u' v' p'.
Proof. apply p_update_ext. Qed.

(** ** The corrector *)

(** X9. With a density that is not zero, [u_update] and [v_update] return
    fields of the shape of their arguments with, in every cell,
    [u - (dt / DENSITY) * d_dx(p)] and [v - (dt / DENSITY) * d_dy(p)]. *)
Theorem corrector_cells {R : Type} `{!Scalar R}
    (g : Globals R) (n m : nat) (w p : array R) :
  has_shape n m w -> has_shape n m p ->
  is_zero (DENSITY g) = false ->
  exists a b,
    u_update g w p = Ok a /\ v_update g w p = Ok b /\
    has_shape n m a /\ has_shape n m b /\
    forall i j, i < n -> j < m ->
      cell a i j =
        sub (cell w i j) (mul (div (dt g) (DENSITY g)) (cell (d_dx g p) i j)) /\
      cell b i j =
        sub (cell w i j) (mul (div (dt g) (DENSITY g)) (cell (d_dy g p) i j)).
Proof.
  intros Hw Hp Hrho. unfold u_update, v_update, float_div. rewrite Hrho.
  simpl. eexists _, _. split; [done|]. split; [done|].
  split; [shape|]. split; [shape|].
  intros i j Hi Hj. unfold arr_sub, scal_mul.
  rewrite !(cell_arr_zip _ n m) by shape.
  by rewrite !(cell_arr_map _ n m) by shape.
Qed.

(** With a density that is zero the corrector raises ZeroDivisionError,
    whatever the fields. *)
Lemma corrector_zero_density {R : Type} `{!Scalar R}
    (g : Globals R) (w p : array R) :
  is_zero (DENSITY g) = true ->
  u_update g w p = Raise ZeroDivisionError /\
  v_update g w p = Raise ZeroDivisionError.
Proof.
  intros Hrho. unfold u_update, v_update, float_div. by rewrite Hrho.
Qed.

(** ** The transition *)



Lemma has_nan_false {R : Type} `{!Scalar R} (a : array R) (i j : nat) (x : R) :
  has_nan a = false -> get a i j = Some x -> is_nan x = false.
Proof.
  unfold has_nan, get. intros Hnan Hget.
  destruct (a !! i) as [r|] eqn:Hr; [|done]. simpl in Hget.
  destruct (is_nan x) eqn:Hx; [|done].
  assert (existsb (existsb is_nan) a = true) as Hex; [|congruence].
  apply existsb_exists. exists r. split.
  - apply list_elem_of_In. by eapply list_elem_of_lookup_2.
  - apply existsb_exists. exists x. split; [|done].
    apply list_elem_of_In. by eapply list_elem_of_lookup_2.
Qed.

Lemma iterator_no_nan {R : Type} `{!Scalar R}
    (g : Globals R) (u_init v_init : array R) (s s' : State R) :
  iterator g u_init v_init s = Ok s' ->
  has_nan (st_u s') = false /\ has_nan (st_v s') = false /\
  has_nan (st_p s') = false.
Proof.
  unfold iterator.
  destruct (intermediate g u_init v_init (st_u s) (st_v s)) as [u_i v_i].
  destruct (p_update g u_i v_i (st_p s)) as [p_next|]; [|done]. simpl.
  destruct (u_update g u_i (st_p s)) as [u_next|]; [|done]. simpl.
  destruct (v_update g v_i (st_p s)) as [v_next|]; [|done]. simpl.
  unfold debug_nans. simpl.
  destruct (has_nan _) eqn:E1; [done|].
  destruct (has_nan _) eqn:E2 in |- *; [done|].
  destruct (has_nan p_next) eqn:E3; [done|].
  simpl. intros [= <-]. done.
Qed.

Lemma timestep_loop_last {R : Type} `{!Scalar R}
    (g : Globals R) (u_init v_init : array R) (steps : nat) (s s' : State R) :
  1 <= steps ->
  timestep_loop g u_init v_init steps s = Ok s' ->
  exists s1, iterator g u_init v_init s1 = Ok s'.
Proof.
  revert s. induction steps as [|k IH]; intros s Hk E; [lia|]. simpl in E.
  destruct (iterator g u_init v_init s) as [s1|] eqn:E1; [|done].
  simpl in E. destruct k as [|k].
  - simpl in E. inversion E; subst. by exists s.
  - apply (IH s1); [lia|done].
Qed.

(** X11. The state that the loop holds after one transition or more holds
    no NaN, in any cell of [u], [v] or [p], whatever the initial fields and
    the constants. *)
Theorem returned_state_has_no_nan {R : Type} `{!Scalar R}
    (g : Globals R) (u_init v_init : array R) (steps : nat) (s s' : State R) :
  1 <= steps ->
  timestep_loop g u_init v_init steps s = Ok s' ->
  forall i j x,
    get (st_u s') i j = Some x \/ get (st_v s') i j = Some x \/
    get (st_p s') i j = Some x ->
    is_nan x = false.
Proof.
  intros Hk E i j x Hx.
  destruct (timestep_loop_last g u_init v_init steps s s' Hk E) as [s1 E1].
  destruct (iterator_no_nan g u_init v_init s1 s' E1) as (Hu & Hv & Hp).
  destruct Hx as [Hx|[Hx|Hx]]; eauto using has_nan_false.
Qed.

(** X12. The shape is kept: from [N] by [N] initial fields, [N >= 2], every
    state that the run returns has [N] by [N] fields [u], [v] and [p]. *)
Theorem run_keeps_shape {R : Type} `{!Scalar R}
    (g : Globals R) (N : nat) (u_init v_init p_init : array R) (s : State R) :
  2 <= N ->
  has_shape N N u_init -> has_shape N N v_init -> has_shape N N p_init ->
  run g u_init v_init p_init = Ok s ->
  has_shape N N (st_u s) /\ has_shape N N (st_v s) /\ has_shape N N (st_p s).
Proof.
  intros HN Hu0 Hv0 Hp0 E. unfold run in E.
  by apply (timestep_loop_shape g N u_init v_init HN Hu0 Hv0 _ _ s) in E.
Qed.

(** X13. Off the edges the velocity that a transition returns is the
    predictor corrected with the pressure that came in:
    [u_intermediate(u, v) - (dt / DENSITY) * d_dx(p)] and
    [v_intermediate(u, v) - (dt / DENSITY) * d_dy(p)] for the state
    [(u, v, p)] it was given. The row that the first setting of the edges
    takes from a column of [u_init] is not in it. *)
Theorem transition_interior {R : Type} `{!Scalar R}
    (g : Globals R) (N : nat) (u_init v_init : array R) (s s' : State R)
    (i j : nat) :
  2 <= N ->
  has_shape N N u_init -> has_shape N N v_init ->
  has_shape N N (st_u s) -> has_shape N N (st_v s) -> has_shape N N (st_p s) ->
  iterator g u_init v_init s = Ok s' ->
  interior N N i j = true ->
  cell (st_u s') i j =
    sub (cell (u_intermediate g (st_u s) (st_v s)) i j)
        (mul (div (dt g) (DENSITY g)) (cell (d_dx g (st_p s)) i j)) /\
  cell (st_v s') i j =
    sub (cell (v_intermediate g (st_u s) (st_v s)) i j)
        (mul (div (dt g) (DENSITY g)) (cell (d_dy g (st_p s)) i j)).
Proof.
  intros HN Hu0 Hv0 Hu Hv Hp E Hin.
  destruct (iterator_Ok g N u_init v_init HN Hu0 Hv0 s s')
    as (u_i & v_i & c & Ei & Ec & _ & Eu & Ev); [done|done|].
  rewrite (intermediate_tab g N u_init v_init HN Hu0 Hv0) in Ei by done.
  injection Ei as <- <-.
  unfold float_div in Ec. destruct (is_zero (DENSITY g)); [done|].
  injection Ec as <-.
  destruct (interior_lt _ _ _ _ Hin) as [Hi Hj].
  assert (boundary N N i j = false) as Hb.
  { unfold interior in Hin. apply bool_decide_eq_true in Hin.
    unfold boundary. apply bool_decide_eq_false. lia. }
  assert (i + 1 <> N) as Hlast.
  { unfold interior in Hin. apply bool_decide_eq_true in Hin. lia. }
  rewrite Eu, Ev, !cell_tab, Hb by done. unfold arr_sub, scal_mul.
  rewrite !(cell_arr_zip _ N N) by shape.
  rewrite !(cell_arr_map _ N N) by shape.
  rewrite !cell_tab, Hb by done. by case_decide.
Qed.

(** X14. The pressure that a transition returns is the solve on the
    predictor with the edges of the initial fields: [p_update] of any [w]
    and [w'] that hold, on the inner rows of [w] and the inner columns of
    [w'], the converted initial value on an edge and the predictor's value
    off it.
    The last row of [u_i], which the first setting of the edges fills from
    a column of [u_init], is not read. *)
Theorem transition_pressure {R : Type} `{!Scalar R}
    (g : Globals R) (N : nat) (u_init v_init w w' : array R) (s s' : State R) :
  2 <= N ->
  has_shape N N u_init -> has_shape N N v_init ->
  has_shape N N (st_u s) -> has_shape N N (st_v s) -> has_shape N N (st_p s) ->
  has_shape N N w -> has_shape N N w' ->
  iterator g u_init v_init s = Ok s' ->
  (forall i j, 1 <= i -> i + 2 <= N -> j < N ->
     cell w i j =
     if bool_decide (j = 0 \/ j + 1 = N) then cast (cell u_init i j)
     else cell (u_intermediate g (st_u s) (st_v s)) i j) ->
  (forall i j, i < N -> 1 <= j -> j + 2 <= N ->
     cell w' i j =
     if bool_decide (i = 0 \/ i + 1 = N) then cast (cell v_init i j)
     else cell (v_intermediate g (st_u s) (st_v s)) i j) ->
  p_update g w w' (st_p s) = Ok (st_p s').
Proof.
  intros HN Hu0 Hv0 Hu Hv Hp Hw Hw' E Ew Ew'.
  destruct (iterator_Ok g N u_init v_init HN Hu0 Hv0 s s')
    as (u_i & v_i & c & Ei & _ & Ep & _ & _); [done|done|].
  rewrite (intermediate_tab g N u_init v_init HN Hu0 Hv0) in Ei by done.
  injection Ei as <- <-. rewrite <- Ep.
  apply (p_update_ext g N); try done; try apply has_shape_tab.
  - intros i j Hi1 Hi2 Hj. rewrite Ew, cell_tab by (done || lia).
    unfold boundary. repeat case_decide; repeat case_bool_decide;
      done || (exfalso; lia).
  - intros i j Hi Hj1 Hj2. rewrite Ew', cell_tab by (done || lia).
    unfold boundary. repeat case_bool_decide; done || (exfalso; lia).
Qed.

(** The four edges of a field, as the transition reads them. *)
Lemma edges_read {R : Type} `{!Scalar R} (N : nat) (a a' : array R) :
  2 <= N -> has_shape N N a -> has_shape N N a' ->
  (forall i j, boundary N N i j = true -> cell a i j = cell a' i j) ->
  row 0 a = row 0 a' /\ row (-1) a = row (-1) a' /\
  col 0 a = col 0 a' /\ col (-1) a = col (-1) a'.
Proof.
  intros HN Ha Ha' E. rewrite (tab_cell N N a Ha), (tab_cell N N a' Ha').
  autorewrite with edges.
  repeat split; apply tab1_ext; intros k Hk; apply E; unfold boundary;
    apply bool_decide_eq_true; lia.
Qed.

(** X15. A transition reads the initial fields on their four edges only:
    with initial fields that agree there it returns, or raises, the same. *)
Theorem transition_reads_initial_edges {R : Type} `{!Scalar R}
    (g : Globals R) (N : nat) (u_init u_init' v_init v_init' : array R)
    (s : State R) :
  2 <= N ->
  has_shape N N u_init -> has_shape N N u_init' ->
  has_shape N N v_init -> has_shape N N v_init' ->
  (forall i j, boundary N N i j = true ->
     cell u_init i j = cell u_init' i j /\ cell v_init i j = cell v_init' i j) ->
  iterator g u_init v_init s = iterator g u_init' v_init' s.
Proof.
  intros HN Hu Hu' Hv Hv' E.
  destruct (edges_read N u_init u_init' HN Hu Hu') as (U1 & U2 & U3 & U4).
  { intros i j Hb. by apply E. }
  destruct (edges_read N v_init v_init' HN Hv Hv') as (V1 & V2 & V3 & V4).
  { intros i j Hb. by apply E. }
  unfold iterator, intermediate.
  by rewrite U1, U2, U3, U4, V1, V2, V3, V4.
Qed.

(** ** The loop over the timesteps *)

Lemma timestep_loop_app {R : Type} `{!Scalar R}
    (g : Globals R) (u_init v_init : array R) (a b : nat) (s : State R) :
  timestep_loop g u_init v_init (a + b) s =
  timestep_loop g u_init v_init a s ≫= timestep_loop g u_init v_init b.
Proof.
  revert s. induction a as [|a IH]; intros s; [done|]. simpl.
  destruct (iterator g u_init v_init s) as [s1|]; [|done]. simpl.
  apply IH.
Qed.

(** X16. The timesteps compose: [a + b] passes through the loop are [a]
    passes followed by [b] passes from the state they reach, and an error
    in the first [a] passes is the error of the whole. *)
Theorem timesteps_compose {R : Type} `{!Scalar R}
    (g : Globals R) (u_init v_init : array R) (a b : nat) (s : State R) :
  timestep_loop g u_init v_init (a + b) s =
  match timestep_loop g u_init v_init a s with
  | Ok s' => timestep_loop g u_init v_init b s'
  | Raise e => Raise e
  end.
Proof. apply timestep_loop_app. Qed.

(** ** The plotted views *)

Lemma omap_fmap_Some {A B : Type} (f : A -> option B) (h : A -> B) (l : list A) :
  (forall x, x ∈ l -> f x = Some (h x)) -> omap f l = h <$> l.
Proof.
  induction l as [|x l IH]; intros E; [done|]. simpl.
  rewrite (E x) by apply list_elem_of_here. simpl. f_equal.
  apply IH. intros y Hy. apply E. by apply list_elem_of_further.
Qed.

(** The number of indices in [range(0, n, k)]. *)
Lemma stride_count_lt (n k i : nat) :
  0 < k -> i < (n + k - 1) / k -> i * k < n.
Proof.
  intros Hk Hi.
  pose proof (Nat.Div0.mul_div_le (n + k - 1) k) as Hle. nia.
Qed.

Lemma every_tab1 {A : Type} (k n : nat) (F : nat -> A) :
  0 < k ->
  every k (tab1 n F) = tab1 ((n + k - 1) / k) (fun i => F (i * k)).
Proof.
  intros Hk. unfold every. rewrite length_tab1. unfold tab1 at 2.
  apply omap_fmap_Some. intros i Hi. apply elem_of_seq in Hi.
  rewrite lookup_tab1. case_decide as Hlt; [done|].
  exfalso. apply Hlt. apply stride_count_lt; lia.
Qed.

Lemma view_tab {R : Type} `{!Scalar R} (k n m : nat) (F : nat -> nat -> R) :
  0 < k ->
  view (Z.of_nat k) (tab n m F) =
  Some (tab ((n + k - 1) / k) ((m + k - 1) / k)
          (fun i j => F (i * k) (j * k))).
Proof.
  intros Hk. unfold view.
  replace (Z.of_nat k =? 0)%Z with false by lia. f_equal.
  destruct (Z.of_nat k) as [|p|p] eqn:E; [lia| |lia]. unfold every_step.
  replace (Pos.to_nat p) with k by lia. unfold tab.
  rewrite every_tab1 by done. rewrite fmap_tab1. apply tab1_ext.
  intros i _. by apply every_tab1.
Qed.

(** [a[::k, ::k]] keeps the rows and columns at the multiples of [k]. *)
Lemma view_every {R : Type} `{!Scalar R}
    (k n m : nat) (a : array R) :
  0 < k -> has_shape n m a ->
  exists b,
    view (Z.of_nat k) a = Some b /\
    has_shape ((n + k - 1) / k) ((m + k - 1) / k) b /\
    forall i j, i < (n + k - 1) / k -> j < (m + k - 1) / k ->
      cell b i j = cell a (i * k) (j * k).
Proof.
  intros Hk Ha. rewrite (tab_cell n m a Ha). rewrite view_tab by done.
  eexists. split; [done|]. split; [apply has_shape_tab|].
  intros i j Hi Hj. rewrite cell_tab by done.
  by rewrite cell_tab by (apply stride_count_lt; lia).
Qed.

Lemma IMAGE_SCALAR_zero {R : Type} (g : Globals R) :
  IMAGE_SCALAR g = 0%Z <-> (-32 < N_POINTS g < 32)%Z.
Proof.
  unfold IMAGE_SCALAR. pose proof (Z.quot_small_iff (N_POINTS g) 32).
  lia.
Qed.

Lemma plots_outcome {R : Type} `{!Scalar R}
    (g : Globals R) (X Y : array R) (s : State R) :
  plots g X Y s =
  if (IMAGE_SCALAR g =? 0)%Z then ([], Some ValueError)
  else
    let k := IMAGE_SCALAR g in
    let w a := every_step k <$> every_step k a in
    ([Contourf (w X) (w Y) (w (st_p s));
      Quiver (w X) (w Y) (w (st_u s)) (w (st_v s))], None).
Proof. unfold plots, view. by destruct (IMAGE_SCALAR g =? 0)%Z. Qed.

(** X17. A plot raises ValueError exactly when [N_POINTS] lies strictly
    between -32 and 32, where [IMAGE_SCALAR] is zero; the fields and the
    state do not matter, and nothing is drawn before the error. *)
Theorem plots_fail_below_32_points {R : Type} `{!Scalar R}
    (g : Globals R) (X Y : array R) (s : State R) :
  (plots g X Y s = ([], Some ValueError) <-> (-32 < N_POINTS g < 32)%Z) /\
  (snd (plots g X Y s) = None <-> ~ (-32 < N_POINTS g < 32)%Z).
Proof.
  rewrite plots_outcome, <- IMAGE_SCALAR_zero.
  destruct (Z.eqb_spec (IMAGE_SCALAR g) 0) as [E|E]; simpl.
  - split; split; done.
  - split; split; done.
Qed.

Lemma plot_points_bounds (N k : nat) :
  32 <= N -> k = N / 32 -> 0 < k /\ 32 <= (N + k - 1) / k <= 63.
Proof.
  intros HN ->. pose proof (Nat.div_mod_eq N 32) as Hdm.
  pose proof (Nat.mod_upper_bound N 32). set (k := N / 32) in *.
  assert (0 < k) as Hk by (apply Nat.div_str_pos; lia).
  split; [done|]. split.
  - apply Nat.div_le_lower_bound; nia.
  - assert ((N + k - 1) / k < 64); [|lia].
    apply Nat.Div0.div_lt_upper_bound. nia.
Qed.

(** X18. With [N_POINTS = N >= 32] every plotted field of an [N] by [N]
    state is a square array of between 32 and 63 points per axis, holding
    the cells [a[i*k, j*k]] for [k = IMAGE_SCALAR]. *)
Theorem plotted_fields_size {R : Type} `{!Scalar R}
    (g : Globals R) (N : nat) (a : array R) :
  N_POINTS g = Z.of_nat N -> 32 <= N -> has_shape N N a ->
  exists (k r : nat) (b : array R),
    IMAGE_SCALAR g = Z.of_nat k /\ 0 < k /\
    view (IMAGE_SCALAR g) a = Some b /\
    has_shape r r b /\ 32 <= r <= 63 /\
    forall i j, i < r -> j < r -> cell b i j = cell a (i * k) (j * k).
Proof.
  intros HNp HN Ha.
  assert (IMAGE_SCALAR g = Z.of_nat (N / 32)) as Hk.
  { unfold IMAGE_SCALAR. rewrite HNp, Z.quot_div_nonneg by lia.
    by rewrite Nat2Z.inj_div. }
  destruct (plot_points_bounds N (N / 32) HN eq_refl) as [Hpos Hr].
  destruct (view_every (N / 32) N N a Hpos Ha) as (b & Eb & Hb & Hc).
  exists (N / 32), ((N + N / 32 - 1) / (N / 32)), b.
  rewrite Hk. repeat (split; [done|]). done.
Qed.

(** ** The loop with its prints and plots *)

Section Logged.
Context {R : Type} `{!Scalar R}.
Variable g : Globals R.
Variables X Y u_init v_init : array R.

Lemma snapshot_outcome i s :
  snapshot g X Y i s =
  if bool_decide (i mod 1000 = 0)
  then (Print i (mul (of_int (Z.of_nat i)) (dt g)) :: (plots g X Y s).1,
        (plots g X Y s).2)
  else ([], None).
Proof. unfold snapshot. case_bool_decide; [|done]. by destruct (plots _ _ _ _). Qed.

Lemma plots_ok s : IMAGE_SCALAR g <> 0%Z -> (plots g X Y s).2 = None.
Proof.
  intros Hk. rewrite plots_outcome.
  by destruct (Z.eqb_spec (IMAGE_SCALAR g) 0).
Qed.

Lemma printed_plots s : printed (plots g X Y s).1 = [].
Proof. rewrite plots_outcome. by destruct (_ =? _)%Z. Qed.

Lemma snapshot_ok i s : IMAGE_SCALAR g <> 0%Z -> (snapshot g X Y i s).2 = None.
Proof.
  intros Hk. rewrite snapshot_outcome. case_bool_decide; [|done].
  simpl. by apply plots_ok.
Qed.

Lemma printed_snapshot i s :
  printed (snapshot g X Y i s).1 = if bool_decide (i mod 1000 = 0) then [i] else [].
Proof.
  rewrite snapshot_outcome. case_bool_decide; [|done]. simpl.
  unfold printed at 1. simpl. fold (printed (plots g X Y s).1).
  by rewrite printed_plots.
Qed.

Lemma printed_app (l k : list (event R)) :
  printed (l ++ k) = printed l ++ printed k.
Proof. apply omap_app. Qed.

Lemma logged_loop_step i steps s s1 :
  IMAGE_SCALAR g <> 0%Z ->
  iterator g u_init v_init s = Ok s1 ->
  logged_loop g X Y u_init v_init i (S steps) s =
  ((snapshot g X Y i s1).1 ++ (logged_loop g X Y u_init v_init (S i) steps s1).1,
   (logged_loop g X Y u_init v_init (S i) steps s1).2).
Proof.
  intros Hk E. simpl. rewrite E.
  pose proof (snapshot_ok i s1 Hk) as Hok.
  destruct (snapshot g X Y i s1) as [out err]. simpl in Hok. subst err.
  by destruct (logged_loop g X Y u_init v_init (S i) steps s1).
Qed.

(** With a step that is not zero the prints and plots leave the result of
    the loop as it is. *)
Lemma logged_loop_result i steps s :
  IMAGE_SCALAR g <> 0%Z ->
  (logged_loop g X Y u_init v_init i steps s).2 =
  match timestep_loop g u_init v_init steps s with
  | Ok s' => Done s'
  | Raise e => Failed (OfSolver e)
  end.
Proof.
  intros Hk. revert i s. induction steps as [|n IH]; intros i s; [done|].
  destruct (iterator g u_init v_init s) as [s1|e] eqn:E.
  - rewrite (logged_loop_step i n s s1) by done. simpl. rewrite E. simpl.
    apply IH.
  - simpl. by rewrite E.
Qed.

Lemma logged_loop_printed i steps s s' :
  IMAGE_SCALAR g <> 0%Z ->
  timestep_loop g u_init v_init steps s = Ok s' ->
  printed (logged_loop g X Y u_init v_init i steps s).1 =
  filter (fun j => j mod 1000 = 0) (seq i steps).
Proof.
  intros Hk. revert i s. induction steps as [|n IH]; intros i s E; [done|].
  simpl in E. destruct (iterator g u_init v_init s) as [s1|] eqn:E1; [|done].
  simpl in E. rewrite (logged_loop_step i n s s1) by done. simpl fst.
  rewrite printed_app, printed_snapshot, (IH (S i) s1) by done.
  simpl seq. rewrite filter_cons. by case_bool_decide; case_decide.
Qed.

Lemma logged_loop_shows i steps s s' j :
  IMAGE_SCALAR g <> 0%Z ->
  timestep_loop g u_init v_init steps s = Ok s' ->
  j < steps -> (i + j) mod 1000 = 0 ->
  exists s_j pre post,
    timestep_loop g u_init v_init (S j) s = Ok s_j /\
    (logged_loop g X Y u_init v_init i steps s).1 =
    pre ++ Print (i + j) (mul (of_int (Z.of_nat (i + j))) (dt g))
        :: (plots g X Y s_j).1 ++ post.
Proof.
  intros Hk. revert i s j.
  induction steps as [|n IH]; intros i s j E Hj Hmod; [lia|].
  simpl in E. destruct (iterator g u_init v_init s) as [s1|] eqn:E1; [|done].
  simpl in E. rewrite (logged_loop_step i n s s1) by done. simpl fst.
  destruct j as [|j].
  - exists s1, [], (logged_loop g X Y u_init v_init (S i) n s1).1.
    split; [simpl; by rewrite E1|].
    rewrite snapshot_outcome. rewrite Nat.add_0_r in *.
    rewrite bool_decide_eq_true_2 by done. simpl. done.
  - destruct (IH (S i) s1 j E) as (s_j & pre & post & Ej & Elog); [lia| |].
    { by replace (S i + j) with (i + S j) by lia. }
    exists s_j, ((snapshot g X Y i s1).1 ++ pre), post. split.
    + change (timestep_loop g u_init v_init (S (S j)) s)
        with (iterator g u_init v_init s ≫=
              timestep_loop g u_init v_init (S j)).
      by rewrite E1.
    + rewrite Elog. replace (S i + j) with (i + S j) by lia.
      by rewrite <- app_assoc.
Qed.
End Logged.

Lemma logged_run_unfold {R : Type} `{!Scalar R}
    (g : Globals R) (X Y u_init v_init p_init : array R) :
  IMAGE_SCALAR g <> 0%Z ->
  let s := {| st_u := u_init; st_v := v_init; st_p := p_init |} in
  let l := logged_loop g X Y u_init v_init 0 (Z.to_nat (TIMESTEPS g)) s in
  logged_run g X Y u_init v_init p_init = ((plots g X Y s).1 ++ l.1, l.2).
Proof.
  intros Hk. cbv zeta. unfold logged_run.
  pose proof (plots_ok g X Y
    {| st_u := u_init; st_v := v_init; st_p := p_init |} Hk) as Hok.
  destruct (plots g X Y _) as [out err]. simpl in Hok. subst err.
  by destruct (logged_loop g X Y u_init v_init 0 _ _).
Qed.

(** X19. On a grid that can be plotted ([IMAGE_SCALAR] not zero) the prints
    and plots change nothing in the result: the run with them ends in the
    state, or the error, of the run without them. *)
Theorem plots_leave_result {R : Type} `{!Scalar R}
    (g : Globals R) (X Y u_init v_init p_init : array R) :
  IMAGE_SCALAR g <> 0%Z ->
  (logged_run g X Y u_init v_init p_init).2 =
  match run g u_init v_init p_init with
  | Ok s => Done s
  | Raise e => Failed (OfSolver e)
  end.
Proof.
  intros Hk. rewrite logged_run_unfold by done. simpl.
  by apply logged_loop_result.
Qed.

(** X20. A run that ends without error has printed one line for each index
    [i < TIMESTEPS] with [i % 1000 == 0], in increasing order, and no
    other. *)
Theorem print_schedule {R : Type} `{!Scalar R}
    (g : Globals R) (X Y u_init v_init p_init : array R) (s : State R) :
  IMAGE_SCALAR g <> 0%Z ->
  run g u_init v_init p_init = Ok s ->
  printed (logged_run g X Y u_init v_init p_init).1 =
  filter (fun i => i mod 1000 = 0) (seq 0 (Z.to_nat (TIMESTEPS g))).
Proof.
  intros Hk E. rewrite logged_run_unfold by done. simpl.
  rewrite printed_app, printed_plots. simpl.
  by apply (logged_loop_printed g X Y u_init v_init 0 _ _ s).
Qed.

(** X21. The line [Timestep i] and the two plots after it show the state
    after [i + 1] transitions: the pass of index [i] makes its transition
    before it prints. *)
Theorem snapshot_shows_state_after {R : Type} `{!Scalar R}
    (g : Globals R) (X Y u_init v_init p_init : array R) (s : State R)
    (i : nat) :
  IMAGE_SCALAR g <> 0%Z ->
  run g u_init v_init p_init = Ok s ->
  i < Z.to_nat (TIMESTEPS g) -> i mod 1000 = 0 ->
  exists s_i pre post,
    timestep_loop g u_init v_init (S i)
      {| st_u := u_init; st_v := v_init; st_p := p_init |} = Ok s_i /\
    (logged_run g X Y u_init v_init p_init).1 =
    pre ++ Print i (mul (of_int (Z.of_nat i)) (dt g))
        :: (plots g X Y s_i).1 ++ post.
Proof.
  intros Hk E Hi Hmod. rewrite logged_run_unfold by done. simpl.
  destruct (logged_loop_shows g X Y u_init v_init 0 _ _ s i Hk E Hi Hmod)
    as (s_i & pre & post & Ei & Elog).
  exists s_i, ((plots g X Y
    {| st_u := u_init; st_v := v_init; st_p := p_init |}).1 ++ pre), post.
  split; [done|]. simpl in Elog. rewrite Elog. by rewrite <- app_assoc.
Qed.


(** X23. With [N_POINTS >= 32] and [TIMESTEPS] zero or negative the
    notebook with its plots draws the initial fields once and ends, without
    error, in the initial fields. *)
Theorem notebook_plots_without_timesteps {R : Type} `{!Scalar R}
    (n_points : Z) (dt' : R) (timesteps : Z) (viscosity density : R)
    (jacobi_iterations : Z) (X Y u_init v_init p_init : array R) :
  (32 <= n_points)%Z -> (timesteps <= 0)%Z ->
  let w a := every_step (Z.quot n_points 32) <$>
             every_step (Z.quot n_points 32) a in
  logged_notebook n_points dt' timesteps viscosity density jacobi_iterations
    X Y u_init v_init p_init =
  ([Contourf (w X) (w Y) (w p_init); Quiver (w X) (w Y) (w u_init) (w v_init)],
   Done {| st_u := u_init; st_v := v_init; st_p := p_init |}).
Proof.
  intros Hn Ht. cbv zeta. unfold logged_notebook, constants, field_synthesis.
  replace (n_points - 1 =? 0)%Z with false by lia.
  replace (n_points <=? 0)%Z with false by lia.
  unfold logged_run. rewrite plots_outcome.
  assert (Z.quot n_points 32 <> 0%Z) as Hk.
  { pose proof (Z.quot_small_iff n_points 32). lia. }
  unfold IMAGE_SCALAR. simpl N_POINTS. simpl TIMESTEPS.
  replace (Z.quot n_points 32 =? 0)%Z with false by lia.
  replace (Z.to_nat timesteps) with 0 by lia. done.
Qed.

(** * The further properties on the small grids *)

(** The cells of a three by three grid, one by one. *)
Ltac cells3 :=
  let i := fresh "i" in
  let j := fresh "j" in
  intros i j; intros;
  destruct i as [|[|[|i]]]; destruct j as [|[|[|j]]];
  try lia; try reflexivity.

Lemma one_step_ok :
  iterator (grid3 2 2) count3 count3
    {| st_u := count3; st_v := count3; st_p := ones3 |} = Ok one_step.
Proof. vm_compute. reflexivity. Qed.

Lemma two_steps_ok :
  timestep_loop (grid3 2 2) count3 count3 2
    {| st_u := count3; st_v := count3; st_p := ones3 |} = Ok two_steps.
Proof. vm_compute. reflexivity. Qed.

Lemma run32_ok :
  run (grid32 1 2) wave32 wave32 zeros32 = Ok two_steps32.
Proof. vm_compute. reflexivity. Qed.

Lemma grid32_constants k t :
  constants 32 (dt (grid32 k t)) t (VISCOSITY (grid32 k t)) 1%float k =
  Ok (grid32 k t).
Proof. reflexivity. Qed.

Lemma operators_without_interior_witness :
  d_dx (grid3 2 1) strip = zeros_like strip /\
  d_dy (grid3 2 1) strip = zeros_like strip /\
  d2_dx2 (grid3 2 1) strip = zeros_like strip /\
  d2_dy2 (grid3 2 1) strip = zeros_like strip.
Proof.
  apply (operators_without_interior (grid3 2 1) 2 3 strip);
    [split; [reflexivity | repeat constructor] | lia].
Defined.

Lemma x_derivatives_read_inner_rows_witness :
  d_dx (grid3 2 1) count3 = d_dx (grid3 2 1) count3_rows /\
  d2_dx2 (grid3 2 1) count3 = d2_dx2 (grid3 2 1) count3_rows.
Proof.
  apply (x_derivatives_read_inner_rows (grid3 2 1) 3 3 count3 count3_rows);
    [shape3 | shape3 | cells3].
Defined.

Lemma y_derivatives_read_inner_columns_witness :
  d_dy (grid3 2 1) count3 = d_dy (grid3 2 1) count3_columns /\
  d2_dy2 (grid3 2 1) count3 = d2_dy2 (grid3 2 1) count3_columns.
Proof.
  apply (y_derivatives_read_inner_columns (grid3 2 1) 3 3 count3
           count3_columns); [shape3 | shape3 | cells3].
Defined.

Lemma laplacian_ignores_corners_witness :
  laplacian (grid3 2 1) count3 = laplacian (grid3 2 1) count3_corners.
Proof.
  apply (laplacian_ignores_corners (grid3 2 1) 3 3 count3 count3_corners);
    [shape3 | shape3 | cells3].
Defined.

Lemma p_update_outcome_witness :
  p_update (grid3 2 1) zeros3 zeros3 ones3 =
  if is_zero (dt (grid3 2 1)) then Raise ZeroDivisionError
  else if (JACOBI_ITERATIONS (grid3 2 1) <=? 0)%Z then Raise UnboundLocalError
  else Ok (jacobi_sweep (grid3 2 1) (rhs_of (grid3 2 1) zeros3 zeros3) ones3).
Proof.
  apply (p_update_outcome (grid3 2 1) 3 zeros3 zeros3 ones3);
    [lia | shape3 | shape3 | shape3].
Defined.

Lemma pressure_three_edges_copied_witness :
  let p := [[1; 1; 1]; [1; 1; 1]; [0; 0; 0]]%float in
  (forall i, i < 3 -> cell p i 0 = cell p i 1) /\
  (forall i, i < 3 -> cell p i (3 - 1) = cell p i (3 - 2)) /\
  (forall j, j < 3 -> cell p 0 j = cell p 1 j).
Proof.
  apply (pressure_three_edges_copied (grid3 2 1) 3 zeros3 zeros3 ones3);
    [lia | shape3 | shape3 | shape3 | vm_compute; reflexivity].
Defined.

Lemma pressure_interior_update_witness :
  let g := grid3 2 1 in
  cell (st_p one_step) 1 1 =
  mul quarter
    (sub (add (add (add (cell ones3 1 (1 + 1)) (cell ones3 1 (1 - 1)))
                   (cell ones3 (1 + 1) 1))
              (cell ones3 (1 - 1) 1))
         (mul (pow (ELEMENT_LENGTH g) 2)
              (mul (div (DENSITY g) (dt g))
                   (add (cell (d_dx g edged3) 1 1)
                        (cell (d_dy g edged3) 1 1))))).
Proof.
  apply (pressure_interior_update (grid3 2 1) 3 edged3 edged3 ones3
           (st_p one_step) 1 1);
    [lia | shape3 | shape3 | shape3 | vm_compute; reflexivity | reflexivity].
Defined.

Lemma p_update_reads_witness :
  p_update (grid3 2 1) count3 count3 count3 =
  p_update (grid3 2 1) count3_rows count3_columns count3_corners.
Proof.
  apply (p_update_reads (grid3 2 1) 3); try shape3; cells3.
Defined.

Lemma corrector_cells_witness :
  let g := grid3 2 1 in
  exists a b,
    u_update g count3 bump3 = Ok a /\ v_update g count3 bump3 = Ok b /\
    has_shape 3 3 a /\ has_shape 3 3 b /\
    forall i j, i < 3 -> j < 3 ->
      cell a i j =
        sub (cell count3 i j)
            (mul (div (dt g) (DENSITY g)) (cell (d_dx g bump3) i j)) /\
      cell b i j =
        sub (cell count3 i j)
            (mul (div (dt g) (DENSITY g)) (cell (d_dy g bump3) i j)).
Proof.
  apply (corrector_cells (grid3 2 1) 3 3 count3 bump3);
    [shape3 | shape3 | reflexivity].
Defined.


Lemma returned_state_has_no_nan_witness :
  timestep_loop (grid3 2 2) count3 count3 2
    {| st_u := count3; st_v := count3; st_p := ones3 |} = Ok two_steps /\
  forall i j x,
    get (st_u two_steps) i j = Some x \/ get (st_v two_steps) i j = Some x \/
    get (st_p two_steps) i j = Some x ->
    is_nan x = false.
Proof.
  split; [exact two_steps_ok|].
  apply (returned_state_has_no_nan (grid3 2 2) count3 count3 2
           {| st_u := count3; st_v := count3; st_p := ones3 |} two_steps);
    [lia | exact two_steps_ok].
Defined.

Lemma run_keeps_shape_witness :
  has_shape 3 3 (st_u two_steps) /\ has_shape 3 3 (st_v two_steps) /\
  has_shape 3 3 (st_p two_steps).
Proof.
  apply (run_keeps_shape (grid3 2 2) 3 count3 count3 ones3 two_steps);
    [lia | shape3 | shape3 | shape3 | exact two_steps_ok].
Defined.

Lemma transition_interior_witness :
  let g := grid3 2 2 in
  cell (st_u one_step) 1 1 =
    sub (cell (u_intermediate g count3 count3) 1 1)
        (mul (div (dt g) (DENSITY g)) (cell (d_dx g ones3) 1 1)) /\
  cell (st_v one_step) 1 1 =
    sub (cell (v_intermediate g count3 count3) 1 1)
        (mul (div (dt g) (DENSITY g)) (cell (d_dy g ones3) 1 1)).
Proof.
  apply (transition_interior (grid3 2 2) 3 count3 count3
           {| st_u := count3; st_v := count3; st_p := ones3 |} one_step 1 1);
    [lia | shape3 | shape3 | shape3 | shape3 | shape3
    | exact one_step_ok | reflexivity].
Defined.

Lemma transition_pressure_witness :
  p_update (grid3 2 2) edged3 edged3 ones3 = Ok (st_p one_step).
Proof.
  apply (transition_pressure (grid3 2 2) 3 count3 count3 edged3 edged3
           {| st_u := count3; st_v := count3; st_p := ones3 |} one_step);
    [lia | shape3 | shape3 | shape3 | shape3 | shape3 | shape3 | shape3
    | exact one_step_ok | cells3 | cells3].
Defined.

Lemma transition_reads_initial_edges_witness :
  let s := {| st_u := count3; st_v := count3; st_p := ones3 |} in
  iterator (grid3 2 2) count3 count3 s =
  iterator (grid3 2 2) count3_interior count3_interior s.
Proof.
  apply (transition_reads_initial_edges (grid3 2 2) 3 count3 count3_interior
           count3 count3_interior);
    [lia | shape3 | shape3 | shape3 | shape3 |].
  intros i j Hb.
  destruct i as [|[|[|i]]]; destruct j as [|[|[|j]]];
    try discriminate Hb; split; reflexivity.
Defined.

Ltac plottable := vm_compute; discriminate.

Lemma plotted_fields_size_witness :
  exists (k r : nat) (b : array float),
    IMAGE_SCALAR (grid32 1 2) = Z.of_nat k /\ 0 < k /\
    view (IMAGE_SCALAR (grid32 1 2)) wave32 = Some b /\
    has_shape r r b /\ 32 <= r <= 63 /\
    forall i j, i < r -> j < r -> cell b i j = cell wave32 (i * k) (j * k).
Proof.
  apply (plotted_fields_size (grid32 1 2) 32 wave32);
    [reflexivity | lia | apply has_shape_tab].
Defined.

Lemma plots_leave_result_witness :
  (logged_run (grid32 1 2) mesh_x mesh_y wave32 wave32 zeros32).2 =
  match run (grid32 1 2) wave32 wave32 zeros32 with
  | Ok s => Done s
  | Raise e => Failed (OfSolver e)
  end.
Proof. apply (plots_leave_result (grid32 1 2)). plottable. Defined.

Lemma print_schedule_witness :
  printed (logged_run (grid32 1 2) mesh_x mesh_y wave32 wave32 zeros32).1 =
  filter (fun i => i mod 1000 = 0)
    (seq 0 (Z.to_nat (TIMESTEPS (grid32 1 2)))).
Proof.
  apply (print_schedule (grid32 1 2) mesh_x mesh_y wave32 wave32 zeros32
           two_steps32); [plottable | exact run32_ok].
Defined.

Lemma snapshot_shows_state_after_witness :
  let g := grid32 1 2 in
  exists s_i pre post,
    timestep_loop g wave32 wave32 (S 0)
      {| st_u := wave32; st_v := wave32; st_p := zeros32 |} = Ok s_i /\
    (logged_run g mesh_x mesh_y wave32 wave32 zeros32).1 =
    pre ++ Print 0 (mul (of_int (Z.of_nat 0)) (dt g))
        :: (plots g mesh_x mesh_y s_i).1 ++ post.
Proof.
  apply (snapshot_shows_state_after (grid32 1 2) mesh_x mesh_y wave32
           wave32 zeros32 two_steps32 0);
    [plottable | exact run32_ok | simpl; lia | reflexivity].
Defined.


Lemma notebook_plots_without_timesteps_witness :
  let w (a : array float) :=
    every_step (Z.quot 32 32) <$> every_step (Z.quot 32 32) a in
  logged_notebook 32 0x1.4f8b588e368f1p-17%float 0
    0x1.999999999999ap-4%float 1%float 2
    mesh_x mesh_y wave32 wave32 zeros32 =
  ([Contourf (w mesh_x) (w mesh_y) (w zeros32);
    Quiver (w mesh_x) (w mesh_y) (w wave32) (w wave32)],
   Done {| st_u := wave32; st_v := wave32; st_p := zeros32 |}).
Proof.
  apply (notebook_plots_without_timesteps 32 0x1.4f8b588e368f1p-17%float 0
           0x1.999999999999ap-4%float 1%float 2); lia.
Defined.
